(** * PareTADF kinetic model: rate matrix, population derivative, driver loop

    A shallow embedding of [kinetic_model/kinetic_model.ipynb].

    The notebook builds, for every dye of a table, the 3x3 matrix [K] of
    rate constants, integrates [dP/dt = K . P] from a fixed initial
    population over a fixed time grid and saves one plot per dye.

    Numbers.  numpy stores float64.  The arithmetic the notebook itself
    performs ([+], unary [-], the products and sums of [np.dot]) is kept
    abstract in the class [Scalar]; statements that only follow the data flow
    hold for every carrier.  The instance at [float] is binary64, the numbers
    of the program; the instance at [R] is exact arithmetic, the "3x3 real
    matrix" of the specification, and carries the statements about
    trajectories; the instance at [Z] runs the definitions on integer rates.
    Where exact arithmetic and binary64 part (a sum that cancels only
    without rounding), the statement says which one it is about. *)

From Stdlib Require Import Floats.
From Stdlib Require Import List ZArith Bool Reals Lra Lia String Ascii.
Import ListNotations.

(** ** Errors: a Python exception is [None] *)

Definition bind {A B : Type} (m : option A) (k : A -> option B) : option B :=
  match m with
  | Some a => k a
  | None => None
  end.

Notation "x <- m ;; k" := (bind m (fun x => k))
  (at level 61, m at next level, right associativity).

(** ** Scalars *)

Class Scalar (A : Type) : Type := {
  sc_zero : A;
  sc_add : A -> A -> A;
  sc_mul : A -> A -> A;
  sc_neg : A -> A
}.

Declare Scope scalar_scope.
Delimit Scope scalar_scope with sc.
Notation "a + b" := (sc_add a b) : scalar_scope.
Notation "a * b" := (sc_mul a b) : scalar_scope.
Notation "- a" := (sc_neg a) : scalar_scope.

#[export] Instance Scalar_R : Scalar R :=
  {| sc_zero := 0%R; sc_add := Rplus; sc_mul := Rmult; sc_neg := Ropp |}.

#[export] Instance Scalar_Z : Scalar Z :=
  {| sc_zero := 0%Z; sc_add := Z.add; sc_mul := Z.mul; sc_neg := Z.opp |}.

(** The numbers numpy stores: binary64, rounded to nearest, ties to even. *)
#[export] Instance Scalar_float : Scalar float :=
  {| sc_zero := 0%float; sc_add := PrimFloat.add; sc_mul := PrimFloat.mul;
     sc_neg := PrimFloat.opp |}.

(** ** Python sequences and numpy arrays *)

Module Py.

(** The position an index [i] names in a sequence of length [n]: a negative
    index counts from the end, anything outside [-n .. n-1] raises IndexError. *)
Definition norm_index (n i : Z) : option Z :=
  let j := if (i <? 0)%Z then (i + n)%Z else i in
  if ((0 <=? j)%Z && (j <? n)%Z)%bool then Some j else None.

(** [l[i]] *)
Definition getitem {A : Type} (l : list A) (i : Z) : option A :=
  j <- norm_index (Z.of_nat (List.length l)) i ;; nth_error l (Z.to_nat j).

Fixpoint update {A : Type} (l : list A) (j : nat) (v : A) : list A :=
  match l, j with
  | [], _ => []
  | _ :: l', O => v :: l'
  | x :: l', S j' => x :: update l' j' v
  end.

(** [l[i] = v] *)
Definition setitem {A : Type} (l : list A) (i : Z) (v : A) : option (list A) :=
  j <- norm_index (Z.of_nat (List.length l)) i ;; Some (update l (Z.to_nat j) v).

(** [M[i, j]] and [M[i, j] = v] on a two-dimensional array *)
Definition getitem2 {A : Type} (M : list (list A)) (i j : Z) : option A :=
  row <- getitem M i ;; getitem row j.

Definition setitem2 {A : Type} (M : list (list A)) (i j : Z) (v : A)
  : option (list (list A)) :=
  row <- getitem M i ;; row' <- setitem row j v ;; setitem M i row'.

End Py.

Section Kernel.

Context {A : Type} `{Scalar A}.

Local Open Scope scalar_scope.

Definition vec : Type := list A.
Definition matrix : Type := list (list A).

(** [np.zeros(n)] and [np.zeros((r, c))] *)
Definition zeros (n : nat) : vec := repeat sc_zero n.
Definition zeros2 (r c : nat) : matrix := repeat (zeros c) r.

(** [make_K_matrix]: its star-argument collects the positional arguments in the tuple
    [rates]; [rates[-1]] is its last element. *)
Definition make_K_matrix (rates : list A) : option matrix :=
  let K := zeros2 3 3 in
  r0 <- Py.getitem rates 0 ;; rl <- Py.getitem rates (-1) ;;
  K <- Py.setitem2 K 0 1 (r0 + rl) ;;
  r0 <- Py.getitem rates 0 ;; r1 <- Py.getitem rates 1 ;;
  rl <- Py.getitem rates (-1) ;;
  K <- Py.setitem2 K 1 1 (- (r0 + r1 + rl)) ;;
  r2 <- Py.getitem rates 2 ;;
  K <- Py.setitem2 K 1 2 r2 ;;
  r1 <- Py.getitem rates 1 ;;
  K <- Py.setitem2 K 2 1 r1 ;;
  r2 <- Py.getitem rates 2 ;;
  K <- Py.setitem2 K 2 2 (- r2) ;;
  Some K.

(** The inner product of a row with a vector, summed from the left. *)
Fixpoint inner (acc : A) (u v : list A) : A :=
  match u, v with
  | a :: u', b :: v' => inner (acc + a * b) u' v'
  | _, _ => acc
  end.

(** [np.dot(K, P)] for a two-dimensional [K] and a one-dimensional [P]:
    ValueError unless every row of [K] is as long as [P].  A matrix is the
    list of its rows, so it has at least one row: the list does not hold the
    number of columns of a matrix without rows. *)
Definition dot (K : matrix) (P : vec) : option vec :=
  if forallb (fun row => Nat.eqb (List.length row) (List.length P)) K
  then Some (map (fun row => inner sc_zero row P) K)
  else None.

(** [dPdt(P, t, K)] *)
Definition dPdt (P : vec) (t : A) (K : matrix) : option vec := dot K P.

End Kernel.

Arguments vec A : clear implicits.
Arguments matrix A : clear implicits.

(** ** Sums, columns and the initial population *)

Section Sums.

Context {A : Type} `{Scalar A}.

(** [v.sum()] *)
Definition vsum (v : vec A) : A := fold_left sc_add v sc_zero.

(** [K[:, j]] *)
Fixpoint column (K : matrix A) (j : Z) : option (vec A) :=
  match K with
  | [] => Some []
  | row :: K' => x <- Py.getitem row j ;; c <- column K' j ;; Some (x :: c)
  end.

(** [K[:, j].sum()] *)
Definition column_sum (K : matrix A) (j : Z) : option A :=
  c <- column K j ;; Some (vsum c).

End Sums.

Local Open Scope R_scope.

(** The initial population, as the notebook fills it in:
    [P0 = np.zeros(3); P0[1] = 0.25; P0[2] = 0.75]. *)
Definition P0 : option (vec R) :=
  let P0 := zeros 3 in
  P0 <- Py.setitem P0 1 0.25 ;;
  P0 <- Py.setitem P0 2 0.75 ;;
  Some P0.

(** ** Trajectories of the rate equations *)

(** The [i]-th population along a trajectory. *)
Definition component (i : nat) (y : R -> vec R) (s : R) : R := nth i (y s) 0.

(** [y] starts at [y0] and, at every time of [[0, T]], its populations have
    the derivatives that [dPdt] returns: it is a trajectory of
    [dP/dt = dPdt(P, t, K)], the function [odeint] is asked to integrate. *)
Definition solution (K : matrix R) (y0 : vec R) (T : R) (y : R -> vec R) : Prop :=
  y 0 = y0 /\
  forall t : R, 0 <= t <= T ->
    exists d : vec R,
      dPdt (y t) t K = Some d /\
      forall i : nat, (i < List.length d)%nat ->
        derivable_pt_lim (component i y) t (nth i d 0).

(** Two trajectories in closed form, from the notebook's initial population:
    the dye that only emits (k_em = 1 Hz, the other rates zero), and the dye
    with all four rates zero. *)
Definition emission_only (s : R) : vec R :=
  [0.25 * (1 - exp (- s)); 0.25 * exp (- s); 0.75].

Definition at_rest (s : R) : vec R := [0; 0.25; 0.75].

(** ** The time grid *)

(** A one-dimensional array of evenly spaced values, kept as its first value,
    its step and its number of values (the notebook's grid is far too long to
    be spelled out as a list). *)
Record ndrange : Type := {
  r_start : R;
  r_step : R;
  r_len : Z
}.

(** [np.arange(start, stop, step)]: the values [start + i * step] for
    [i = 0 .. n-1] with [n = ceil((stop - start) / step)], none when that is
    negative; numpy refuses a zero step.  The quotient is taken here in
    exact arithmetic; numpy takes it in binary64, which can give one value
    more when the quotient is rounded up past an integer.  For the grid of
    the notebook the two agree ([grid_quotient_binary64]). *)
Definition arange (start stop step : R) : option ndrange :=
  if Req_dec_T step 0 then None
  else Some {| r_start := start;
               r_step := step;
               r_len := Z.max 0 (Zceil ((stop - start) / step)) |}.

(** [g[i]] *)
Definition sample (g : ndrange) (i : Z) : option R :=
  j <- Py.norm_index (r_len g) i ;;
  Some (r_start g + IZR j * r_step g).

(** [t = np.arange(0, 1e-2, 1e-10)] *)
Definition t : option ndrange := arange 0 1e-2 1e-10.

(** The grid as the specification describes it, for a number [n] of samples:
    it starts at 0, every sample lies before 1e-2, consecutive samples are
    1e-10 apart, and there are [n] of them. *)
Definition time_grid_spec (n : Z) : Prop :=
  exists g : ndrange,
    t = Some g /\
    sample g 0 = Some 0 /\
    (forall (i : Z) (s : R), sample g i = Some s -> 0 <= s < 1e-2) /\
    (forall i : Z, (0 <= i)%Z -> (i + 1 < r_len g)%Z ->
       exists a b : R,
         sample g i = Some a /\ sample g (i + 1) = Some b /\ b - a = 1e-10) /\
    r_len g = n.

(** ** File names *)

Local Open Scope string_scope.

(** [s.replace(old, new)]: every occurrence of [old], found from the left
    and not overlapping, becomes [new].  [skip] counts the characters of a
    replaced occurrence that are still to be passed over. *)
Fixpoint replace_from (old new : string) (skip : nat) (s : string) : string :=
  match s with
  | EmptyString => EmptyString
  | String c s' =>
      match skip with
      | S k => replace_from old new k s'
      | O =>
          if prefix old s
          then new ++ replace_from old new (String.length old - 1) s'
          else String c (replace_from old new 0 s')
      end
  end.

(** An empty [old] matches before every character and at the end. *)
Fixpoint intersperse (new s : string) : string :=
  match s with
  | EmptyString => new
  | String c s' => new ++ String c (intersperse new s')
  end.

Definition replace (old new s : string) : string :=
  match old with
  | EmptyString => intersperse new s
  | _ => replace_from old new 0 s
  end.

(** The argument of [plt.savefig] in [plot_pops]:
    ["%s.svg" % mdl_name.replace(" ", "_")]. *)
Definition svg_name (mdl_name : string) : string :=
  replace " " "_" mdl_name ++ ".svg".

(** The name the specification describes: each space of the model's name
    turned into an underscore, the other characters kept. *)
Fixpoint underscore_spaces (s : string) : string :=
  match s with
  | EmptyString => EmptyString
  | String c s' =>
      String (if Ascii.eqb c " "%char then "_"%char else c) (underscore_spaces s')
  end.

Local Close Scope string_scope.

(** ** The notebook's globals and the loop over the models *)

(** What leaves the notebook: the calls of the integrator and the files
    written. *)
Inductive event : Type :=
| Odeint (y0 : vec R) (grid : ndrange) (K : matrix R)
| Savefig (fname : string).

(** The globals the loop reads, and the calls made so far (latest last). *)
Record notebook : Type := {
  nb_P0 : vec R;
  nb_t : ndrange;
  nb_log : list event
}.

(** A cell of the notebook runs on the globals and either yields a value or
    raises; what was done before the exception stays done. *)
Definition cell (X : Type) : Type := notebook -> notebook * option X.

Definition ret {X : Type} (x : X) : cell X := fun nb => (nb, Some x).

Definition bind_cell {X Y : Type} (m : cell X) (k : X -> cell Y) : cell Y :=
  fun nb =>
    match m nb with
    | (nb', Some x) => k x nb'
    | (nb', None) => (nb', None)
    end.

Notation "x <~ m ;; k" := (bind_cell m (fun x => k))
  (at level 61, m at next level, right associativity).

Definition lift {X : Type} (o : option X) : cell X := fun nb => (nb, o).

Definition global {X : Type} (field : notebook -> X) : cell X :=
  fun nb => (nb, Some (field nb)).

(** The notebook after some more calls: only the log grows. *)
Definition with_log (nb : notebook) (evs : list event) : notebook :=
  {| nb_P0 := nb_P0 nb; nb_t := nb_t nb; nb_log := nb_log nb ++ evs |}.

Definition emit (e : event) : cell unit :=
  fun nb => (with_log nb [e], Some tt).

(** The state in which the loop starts: [P0] and [t] as the cells above
    the loop define them. *)
Definition notebook_init : option notebook :=
  p <- P0 ;; g <- t ;; Some {| nb_P0 := p; nb_t := g; nb_log := [] |}.

Section Driver.

(** [scipy.integrate.odeint(func, y0, t, args=(K,))]: one population vector
    for each time of the grid, or an error. *)
Variable odeint :
  (vec R -> R -> matrix R -> option (vec R)) ->
  vec R -> ndrange -> matrix R -> option (list (vec R)).

(** What [plot_pops] asks of matplotlib: the figure with the three curves
    [sol[:,0]], [sol[:,1]], [sol[:,2]] against [t] and the title
    [mdl_name], written by [plt.savefig] under the file name given.  It
    raises when the curves cannot be taken from [sol] or drawn, or when the
    file cannot be written (a name that points into a directory that does
    not exist, for one). *)
Variable render : ndrange -> list (vec R) -> string -> string -> option unit.

(** [plot_pops(t, sol, mdl_name)]: the file is there once [plt.savefig]
    has returned. *)
Definition plot_pops (grid : ndrange) (sol : list (vec R)) (mdl_name : string)
  : cell unit :=
  _ <~ lift (render grid sol mdl_name (svg_name mdl_name)) ;;
  emit (Savefig (svg_name mdl_name)).

(** The body of [for i, mdl in enumerate(mdls.values)]. *)
Definition loop_body (rates : list (list R)) (i : nat) (mdl : string) : cell unit :=
  let mdl_name := mdl in
  ks <~ lift (nth_error rates i) ;;
  K <~ lift (make_K_matrix ks) ;;
  y0 <~ global nb_P0 ;;
  grid <~ global nb_t ;;
  _ <~ emit (Odeint y0 grid K) ;;
  sol <~ lift (odeint dPdt y0 grid K) ;;
  grid <~ global nb_t ;;
  plot_pops grid sol mdl_name.

(** What the iteration of a model needs to complete: its row of rates, the
    matrix of that row, the integration and the figure. *)
Definition iteration_returns (rates : list (list R)) (nb : notebook)
           (m : nat * string) : Prop :=
  exists (ks : list R) (K : matrix R) (sol : list (vec R)),
    nth_error rates (fst m) = Some ks /\
    make_K_matrix ks = Some K /\
    odeint dPdt (nb_P0 nb) (nb_t nb) K = Some sol /\
    render (nb_t nb) sol (snd m) (svg_name (snd m)) <> None.

Fixpoint loop (rates : list (list R)) (ms : list (nat * string)) : cell unit :=
  match ms with
  | [] => ret tt
  | (i, mdl) :: ms' => _ <~ loop_body rates i mdl ;; loop rates ms'
  end.

(** [enumerate(mdls.values)] *)
Definition enumerate (mdls : list string) : list (nat * string) :=
  combine (seq 0 (List.length mdls)) mdls.

Definition run (mdls : list string) (rates : list (list R)) : cell unit :=
  loop rates (enumerate mdls).

End Driver.

(** The integrator calls and the files of a log, in order. *)
Definition integrations (log : list event) : list (vec R * ndrange * matrix R) :=
  flat_map (fun e => match e with
                     | Odeint y0 g K => [(y0, g, K)]
                     | Savefig _ => []
                     end) log.

Definition saved (log : list event) : list string :=
  flat_map (fun e => match e with
                     | Savefig f => [f]
                     | Odeint _ _ _ => []
                     end) log.


(** ** The table of rates *)

(** The DataFrame of [pd.read_csv("rate_constants.csv")], as far as the
    notebook reads it: a number of rows and, by label, its columns of text
    and its columns of float64.  The notebook takes the names of the dyes
    from a column of text and the rates from columns of float64; a frame
    with other dtypes under these labels is not represented. *)
Record DataFrame : Type := {
  df_len : nat;
  df_text : list (string * list string);
  df_float : list (string * list R)
}.

(** pandas keeps every column as long as the frame. *)
Definition well_formed (df : DataFrame) : Prop :=
  Forall (fun c => List.length (snd c) = df_len df) (df_text df) /\
  Forall (fun c => List.length (snd c) = df_len df) (df_float df).

(** [df[label]]: KeyError when no column carries the label. *)
Fixpoint column_of {X : Type} (label : string) (cols : list (string * list X))
  : option (list X) :=
  match cols with
  | [] => None
  | (l, c) :: cols' => if String.eqb l label then Some c else column_of label cols'
  end.

(** [df[[label; ...]]]: the columns asked for, in the order asked for. *)
Fixpoint columns_of {X : Type} (labels : list string)
         (cols : list (string * list X)) : option (list (list X)) :=
  match labels with
  | [] => Some []
  | l :: labels' =>
      c <- column_of l cols ;; cs <- columns_of labels' cols ;; Some (c :: cs)
  end.

(** Row [i] of [.values]: cell [i] of every column. *)
Fixpoint row_of {X : Type} (cols : list (list X)) (i : nat) : option (list X) :=
  match cols with
  | [] => Some []
  | c :: cols' => x <- nth_error c i ;; r <- row_of cols' i ;; Some (x :: r)
  end.

Fixpoint rows_of {X : Type} (cols : list (list X)) (indices : list nat)
  : option (list (list X)) :=
  match indices with
  | [] => Some []
  | i :: indices' =>
      r <- row_of cols i ;; rs <- rows_of cols indices' ;; Some (r :: rs)
  end.

(** [.values] of a frame of [n] rows with the columns [cols]. *)
Definition values {X : Type} (n : nat) (cols : list (list X))
  : option (list (list X)) :=
  rows_of cols (seq 0 n).

(** [mdls = df["Dye"]], read through [mdls.values]. *)
Definition mdls (df : DataFrame) : option (list string) :=
  column_of "Dye" (df_text df).

(** [rates = df[["k_em / Hz", "k_ISC / Hz", "k_rISC / Hz", "k_nr / Hz"]]],
    read through [rates.values]. *)
Definition rates (df : DataFrame) : option (list (list R)) :=
  cols <- columns_of ["k_em / Hz"; "k_ISC / Hz"; "k_rISC / Hz"; "k_nr / Hz"]%string
                     (df_float df) ;;
  values (df_len df) cols.

(** ** Characters of a name *)

(** Whether the character [c] occurs in [s]. *)
Fixpoint occurs (c : ascii) (s : string) : bool :=
  match s with
  | EmptyString => false
  | String x s' => Ascii.eqb x c || occurs c s'
  end.

(** ** The events of the iterations that complete *)

(** What the iteration of a model leaves in the log when it completes with
    the matrix [K]: the integration, then the figure. *)
Definition iteration_events (y0 : vec R) (grid : ndrange)
           (it : matrix R * string) : list event :=
  [Odeint y0 grid (fst it); Savefig (svg_name (snd it))].

(** The matrix of the representative quadruple of the specification, in Hz. *)
Example make_K_matrix_run :
  make_K_matrix [10000000; 1000000; 100000; 1000000]%Z
  = Some [[0; 11000000; 0]; [0; -12000000; 100000]; [0; 1000000; -100000]]%Z.
Proof. reflexivity. Qed.

Example make_K_matrix_too_few : make_K_matrix [1; 2]%Z = None.
Proof. reflexivity. Qed.

Example dPdt_run :
  (K <- make_K_matrix [10; 1; 2; 1] ;; dPdt [0; 4; 3] 0 K)%Z = Some [44; -42; -2]%Z.
Proof. reflexivity. Qed.

Example dPdt_shape_error :
  (K <- make_K_matrix [10; 1; 2; 1] ;; dPdt [0; 4] 0 K)%Z = None.
Proof. reflexivity. Qed.

Example getitem_last : Py.getitem [1; 2; 3; 4]%Z (-1) = Some 4%Z.
Proof. reflexivity. Qed.

Example getitem_out_of_range : Py.getitem [1; 2; 3; 4]%Z 4 = None.
Proof. reflexivity. Qed.

Example replace_run :
  (replace "ab" "X" "aabab-ab" = "aXX-X"
   /\ replace "aa" "b" "aaa" = "ba"
   /\ replace "" "-" "ab" = "-a-b-")%string.
Proof. repeat split. Qed.

Example svg_name_run : svg_name "4CzIPN in  toluene" = "4CzIPN_in__toluene.svg"%string.
Proof. reflexivity. Qed.

Section RateMatrix.

Context {A : Type} `{Scalar A}.
Local Open Scope scalar_scope.

(** C1: for every four rate constants the matrix that make_K_matrix returns
    has K[0][1] = k_em + k_nr, K[1][1] = -(k_em + k_ISC + k_nr),
    K[1][2] = k_rISC, K[2][1] = k_ISC, K[2][2] = -k_rISC, and a zero in
    each of the four other places K[0][0], K[0][2], K[1][0], K[2][0]. *)
Theorem make_K_matrix_entries (k_em k_ISC k_rISC k_nr : A) :
  exists K : matrix A,
    make_K_matrix [k_em; k_ISC; k_rISC; k_nr] = Some K /\
    Py.getitem2 K 0 1 = Some (k_em + k_nr) /\
    Py.getitem2 K 1 1 = Some (- (k_em + k_ISC + k_nr)) /\
    Py.getitem2 K 1 2 = Some k_rISC /\
    Py.getitem2 K 2 1 = Some k_ISC /\
    Py.getitem2 K 2 2 = Some (- k_rISC) /\
    Py.getitem2 K 0 0 = Some sc_zero /\
    Py.getitem2 K 0 2 = Some sc_zero /\
    Py.getitem2 K 1 0 = Some sc_zero /\
    Py.getitem2 K 2 0 = Some sc_zero /\
    List.length K = 3%nat /\ Forall (fun row => List.length row = 3%nat) K.
Proof.
  eexists. split; [reflexivity|].
  repeat split; repeat constructor.
Qed.

End RateMatrix.

Lemma P0_value : P0 = Some [0; 0.25; 0.75].
Proof. reflexivity. Qed.

(** ** Lemmas of analysis *)

Lemma zero_derivative_constant (f : R -> R) (a b : R) :
  (forall x, a <= x <= b -> derivable_pt_lim f x 0) ->
  forall x, a <= x <= b -> f x = f a.
Proof.
  intros Hd x Hx.
  assert (pr : forall z, a < z < b -> derivable_pt f z).
  { intros z Hz. exists 0. apply Hd. lra. }
  apply (null_derivative_loc f a b pr); auto.
  - intros z Hz. apply derivable_continuous_pt. exists 0. apply Hd; exact Hz.
  - intros z Hz. apply derive_pt_eq_0. apply Hd. lra.
Qed.

Lemma derivable_pt_lim_sum3 (f g h : R -> R) (x a b c : R) :
  derivable_pt_lim f x a -> derivable_pt_lim g x b -> derivable_pt_lim h x c ->
  derivable_pt_lim (fun s => f s + g s + h s) x (a + b + c).
Proof.
  intros Hf Hg Hh.
  exact (derivable_pt_lim_plus _ _ _ _ _ (derivable_pt_lim_plus _ _ _ _ _ Hf Hg) Hh).
Qed.

(** ** What [dPdt] computes on the matrix of four rates *)

Lemma make_K_matrix_R (k_em k_ISC k_rISC k_nr : R) :
  make_K_matrix [k_em; k_ISC; k_rISC; k_nr]
  = Some [[0; k_em + k_nr; 0];
          [0; - (k_em + k_ISC + k_nr); k_rISC];
          [0; k_ISC; - k_rISC]].
Proof. reflexivity. Qed.

Lemma dPdt_three (K : matrix R) (P d : vec R) (t : R) :
  List.length K = 3%nat -> Forall (fun row => List.length row = 3%nat) K ->
  dPdt P t K = Some d ->
  exists p0 p1 p2, P = [p0; p1; p2].
Proof.
  intros HK Hrows Hd. unfold dPdt, dot in Hd.
  destruct K as [|r0 K]; [discriminate|].
  inversion Hrows as [|? ? Hr0 _]; subst.
  cbn [forallb] in Hd. rewrite Hr0 in Hd.
  destruct P as [|p0 [|p1 [|p2 [|p3 P]]]]; try discriminate.
  now exists p0, p1, p2.
Qed.

Lemma dPdt_make_K (k_em k_ISC k_rISC k_nr p0 p1 p2 t : R) (K : matrix R) :
  make_K_matrix [k_em; k_ISC; k_rISC; k_nr] = Some K ->
  dPdt [p0; p1; p2] t K
  = Some [(k_em + k_nr) * p1;
          - (k_em + k_ISC + k_nr) * p1 + k_rISC * p2;
          k_ISC * p1 + - k_rISC * p2].
Proof.
  rewrite make_K_matrix_R. intros [= <-].
  cbv [dPdt dot forallb List.length Nat.eqb andb map inner sc_zero sc_add sc_mul
       Scalar_R].
  f_equal. repeat (apply f_equal2; [ring|]). reflexivity.
Qed.

Lemma vsum_three (v : vec R) :
  List.length v = 3%nat -> vsum v = nth 0 v 0 + nth 1 v 0 + nth 2 v 0.
Proof.
  destruct v as [|a [|b [|c [|e v]]]]; try discriminate.
  intros _. cbn. ring.
Qed.

(** Along a trajectory for the matrix of four rates the state has three
    populations, and their derivatives are the three rate equations. *)
Lemma solution_at (k_em k_ISC k_rISC k_nr : R) (K : matrix R)
      (y0 : vec R) (T : R) (y : R -> vec R) (x : R) :
  make_K_matrix [k_em; k_ISC; k_rISC; k_nr] = Some K ->
  solution K y0 T y -> 0 <= x <= T ->
  List.length (y x) = 3%nat /\
  derivable_pt_lim (component 0 y) x ((k_em + k_nr) * component 1 y x) /\
  derivable_pt_lim (component 1 y) x
    (- (k_em + k_ISC + k_nr) * component 1 y x + k_rISC * component 2 y x) /\
  derivable_pt_lim (component 2 y) x
    (k_ISC * component 1 y x + - k_rISC * component 2 y x).
Proof.
  intros HK [_ Hy] Hx.
  destruct (Hy x Hx) as (d & Hd & Hder).
  assert (Hshape : exists p0 p1 p2, y x = [p0; p1; p2]).
  { apply (dPdt_three K (y x) d x); [| |exact Hd];
      rewrite make_K_matrix_R in HK; injection HK as <-;
      [reflexivity | repeat constructor]. }
  destruct Hshape as (p0 & p1 & p2 & Hyx).
  rewrite Hyx, (dPdt_make_K _ _ _ _ _ _ _ _ _ HK) in Hd. injection Hd as <-.
  assert (H1 : component 1 y x = p1) by (unfold component; now rewrite Hyx).
  assert (H2 : component 2 y x = p2) by (unfold component; now rewrite Hyx).
  rewrite H1, H2.
  split; [now rewrite Hyx|].
  split; [exact (Hder 0%nat ltac:(cbn; lia))|].
  split; [exact (Hder 1%nat ltac:(cbn; lia)) | exact (Hder 2%nat ltac:(cbn; lia))].
Qed.

(** In exact arithmetic every column of the matrix sums to zero. *)
Lemma make_K_matrix_columns_exact (k_em k_ISC k_rISC k_nr : R) :
  exists K : matrix R,
    make_K_matrix [k_em; k_ISC; k_rISC; k_nr] = Some K /\
    column_sum K 0 = Some 0 /\
    column_sum K 1 = Some 0 /\
    column_sum K 2 = Some 0.
Proof.
  eexists. split; [apply make_K_matrix_R|].
  repeat split;
    unfold column_sum; simpl; cbv [vsum fold_left sc_add sc_zero Scalar_R];
    f_equal; ring.
Qed.

(** ** binary64: what cancels and what does not *)

#[local] Set Warnings "-inexact-float".

Lemma binary64_injective (x y : float) : Prim2SF x = Prim2SF y -> x = y.
Proof.
  intros E. rewrite <- (SF2Prim_Prim2SF x), <- (SF2Prim_Prim2SF y).
  now rewrite E.
Qed.

Lemma binary64_finite_cases (x : float) :
  is_finite x = true ->
  (exists s, Prim2SF x = S754_zero s) \/
  (exists s m e, Prim2SF x = S754_finite s m e).
Proof.
  unfold is_finite, is_nan, is_infinity.
  rewrite !FloatAxioms.eqb_spec, abs_spec.
  destruct (Prim2SF x) as [s | s | | s m e] eqn:E.
  - intros _. left. now exists s.
  - destruct s; vm_compute; discriminate.
  - vm_compute. discriminate.
  - intros _. right. now exists s, m, e.
Qed.

(** [0 + 0 + x + -x] is [+0] for every finite [x]: the sum of the column
    [0, x, -x], taken from the left as [vsum] takes it. *)
Lemma binary64_cancel (x : float) :
  is_finite x = true -> (0 + 0 + x + - x)%float = 0%float.
Proof.
  intros Hx. apply binary64_injective.
  rewrite add_spec, opp_spec, add_spec.
  change (Prim2SF (0 + 0)%float) with (S754_zero false).
  change (Prim2SF 0%float) with (S754_zero false).
  destruct (binary64_finite_cases x Hx) as [(s & E) | (s & m & e & E)];
    rewrite E.
  - now destruct s.
  - cbn [SFopp]. unfold SF64add, SFadd.
    rewrite Z.min_id. unfold shl_align. rewrite Z.sub_diag. cbn [fst].
    replace (cond_Zopp s (Z.pos m) + cond_Zopp (negb s) (Z.pos m))%Z with 0%Z
      by (destruct s; unfold cond_Zopp; cbn [negb]; lia).
    reflexivity.
Qed.

(** The quotient from which [np.arange] takes the length of the notebook's
    grid is the same in binary64 as in exact arithmetic. *)
Example grid_quotient_binary64 :
  ((0.01 - 0) / 1e-10)%float = 100000000%float.
Proof. vm_compute. reflexivity. Qed.

(** C2, as stated, fails: for the rates (0.1, 0.2, 0.3, 0.4) the entries of
    column 1 are 0.5, -0.7000000000000001 and 0.2 in binary64, and their sum
    is -2^-54, not zero. *)
Lemma column_one_sum_binary64 :
  exists (K : matrix float) (c : float),
    make_K_matrix [0.1; 0.2; 0.3; 0.4]%float = Some K /\
    column K 1 = Some [0.5; -0.7000000000000001; 0.2]%float /\
    column_sum K 1 = Some c /\
    c = (-0x1p-54)%float /\
    PrimFloat.eqb c 0 = false.
Proof.
  eexists. eexists.
  split; [vm_compute; reflexivity|].
  split; [vm_compute; reflexivity|].
  split; [vm_compute; reflexivity|].
  split; [reflexivity | vm_compute; reflexivity].
Qed.

(** C2, with the sum of column 1 kept to exact arithmetic: for every rate
    quadruple, in whatever numbers, column 0 of the matrix K of
    make_K_matrix is zero throughout, row 0 is zero outside K[0][1], column
    1 holds k_em + k_nr, -(k_em + k_ISC + k_nr), k_ISC and column 2 holds
    0, k_rISC, -k_rISC; in binary64 columns 0 and 2 sum to zero (k_rISC
    finite); in exact arithmetic each of the three columns sums to zero. *)
Theorem make_K_matrix_column_sums :
  (forall (A : Type) (S : Scalar A) (k_em k_ISC k_rISC k_nr : A),
     exists K : matrix A,
       make_K_matrix [k_em; k_ISC; k_rISC; k_nr] = Some K /\
       column K 0 = Some [sc_zero; sc_zero; sc_zero] /\
       column K 1
       = Some [sc_add k_em k_nr; sc_neg (sc_add (sc_add k_em k_ISC) k_nr);
               k_ISC] /\
       column K 2 = Some [sc_zero; k_rISC; sc_neg k_rISC] /\
       Py.getitem2 K 0 0 = Some sc_zero /\
       Py.getitem2 K 0 2 = Some sc_zero) /\
  (forall k_em k_ISC k_rISC k_nr : float,
     is_finite k_rISC = true ->
     exists K : matrix float,
       make_K_matrix [k_em; k_ISC; k_rISC; k_nr] = Some K /\
       column_sum K 0 = Some 0%float /\
       column_sum K 2 = Some 0%float) /\
  (forall k_em k_ISC k_rISC k_nr : R,
     exists K : matrix R,
       make_K_matrix [k_em; k_ISC; k_rISC; k_nr] = Some K /\
       column_sum K 0 = Some 0 /\
       column_sum K 1 = Some 0 /\
       column_sum K 2 = Some 0).
Proof.
  split; [|split].
  - intros A S k_em k_ISC k_rISC k_nr.
    eexists. split; [reflexivity|]. repeat split.
  - intros k_em k_ISC k_rISC k_nr Hfin.
    eexists. split; [reflexivity|]. split.
    + reflexivity.
    + unfold column_sum. cbn [column Py.getitem Py.norm_index bind].
      change (Some (vsum [0%float; k_rISC; (- k_rISC)%float]) = Some 0%float).
      unfold vsum. cbn [fold_left sc_add sc_zero Scalar_float].
      f_equal. exact (binary64_cancel k_rISC Hfin).
  - exact make_K_matrix_columns_exact.
Qed.

Lemma make_K_matrix_column_sums_witness :
  exists K : matrix float,
    make_K_matrix [0.1; 0.2; 0.3; 0.4]%float = Some K /\
    column_sum K 0 = Some 0%float /\
    column_sum K 2 = Some 0%float.
Proof.
  apply (proj1 (proj2 make_K_matrix_column_sums)). reflexivity.
Defined.

(** ** The time grid *)

Lemma t_value :
  t = Some {| r_start := 0; r_step := 1e-10; r_len := 100000000 |}.
Proof.
  unfold t, arange.
  destruct (Req_dec_T 1e-10 0) as [E|_]; [lra|].
  rewrite (Zceil_eq 100000000) by lra. reflexivity.
Qed.

Lemma norm_index_range (n i j : Z) :
  Py.norm_index n i = Some j -> (0 <= j < n)%Z /\ (j = i \/ j = i + n)%Z.
Proof.
  unfold Py.norm_index.
  destruct (i <? 0)%Z;
    match goal with |- context [(?a && ?b)%bool] =>
      destruct a eqn:Ha; destruct b eqn:Hb; simpl; try discriminate
    end;
    intros [= <-]; lia.
Qed.

Lemma norm_index_in (n i : Z) :
  (0 <= i < n)%Z -> Py.norm_index n i = Some i.
Proof.
  intros Hi. unfold Py.norm_index.
  destruct (Z.ltb_spec i 0); [lia|].
  destruct (Z.leb_spec 0 i); [|lia].
  destruct (Z.ltb_spec i n); [reflexivity|lia].
Qed.

Lemma sample_t (g : ndrange) (i : Z) (s : R) :
  t = Some g -> sample g i = Some s ->
  exists j : Z, (0 <= j < 100000000)%Z /\ s = IZR j * 1e-10 /\ 0 <= s < 1e-2.
Proof.
  rewrite t_value. intros [= <-]. unfold sample. cbn [r_len r_start r_step].
  destruct (Py.norm_index 100000000 i) as [j|] eqn:Hj; [|discriminate].
  cbn [bind]. intros [= <-].
  apply norm_index_range in Hj. destruct Hj as [[Hlo Hhi] _].
  exists j. split; [lia|]. split; [ring|].
  apply IZR_le in Hlo. apply Z.lt_le_pred in Hhi. apply IZR_le in Hhi.
  change (Z.pred 100000000) with 99999999%Z in Hhi.
  lra.
Qed.

Lemma time_grid_length (n : Z) : time_grid_spec n -> n = 100000000%Z.
Proof.
  intros (g & Hg & _ & _ & _ & Hn).
  rewrite t_value in Hg. injection Hg as <-. now rewrite <- Hn.
Qed.

(** C6, with the number of samples the code has: the grid starts at 0, every sample lies before 1e-2 s,
    consecutive samples are 1e-10 s apart, and it has one hundred million
    (10^8) samples. *)
Theorem time_grid_hundred_million : time_grid_spec 100000000.
Proof.
  eexists. split; [apply t_value|].
  split; [unfold sample; cbn; f_equal; ring|].
  split.
  { intros i s Hs.
    destruct (sample_t _ i s t_value Hs) as (_ & _ & _ & Hr). exact Hr. }
  split; [|reflexivity].
  cbn [r_len]. intros i Hi Hi1.
  exists (0 + IZR i * 1e-10), (0 + IZR (i + 1) * 1e-10).
  unfold sample. cbn [r_len r_start r_step].
  rewrite !norm_index_in by lia. cbn [bind].
  split; [reflexivity|]. split; [reflexivity|].
  rewrite plus_IZR. lra.
Qed.

(** C6, as stated, fails: the grid does not have one million samples. *)
Lemma time_grid_not_one_million : ~ time_grid_spec 1000000.
Proof.
  intros Hn. apply time_grid_length in Hn. discriminate Hn.
Qed.

(** ** Conservation of the total population *)

Lemma total_derivative (k_em k_ISC k_rISC k_nr : R) (K : matrix R)
      (y0 : vec R) (T : R) (y : R -> vec R) (x : R) :
  make_K_matrix [k_em; k_ISC; k_rISC; k_nr] = Some K ->
  solution K y0 T y -> 0 <= x <= T ->
  derivable_pt_lim
    (fun s => component 0 y s + component 1 y s + component 2 y s) x 0.
Proof.
  intros HK Hy Hx.
  destruct (solution_at _ _ _ _ _ _ _ _ _ HK Hy Hx) as (_ & H0 & H1 & H2).
  pose proof (derivable_pt_lim_sum3 _ _ _ _ _ _ _ H0 H1 H2) as Hs.
  match type of Hs with derivable_pt_lim _ _ ?l =>
    replace 0 with l by ring
  end.
  exact Hs.
Qed.

Lemma total_conserved (k_em k_ISC k_rISC k_nr : R) (K : matrix R)
      (y0 : vec R) (T : R) (y : R -> vec R) (x : R) :
  make_K_matrix [k_em; k_ISC; k_rISC; k_nr] = Some K ->
  solution K y0 T y -> 0 <= x <= T ->
  vsum (y x) = vsum y0.
Proof.
  intros HK Hy Hx.
  assert (H0T : 0 <= 0 <= T) by lra.
  destruct (solution_at _ _ _ _ _ _ _ _ _ HK Hy Hx) as (Lx & _).
  destruct (solution_at _ _ _ _ _ _ _ _ _ HK Hy H0T) as (L0 & _).
  rewrite <- (proj1 Hy).
  rewrite (vsum_three _ Lx), (vsum_three _ L0).
  apply (zero_derivative_constant
           (fun s => component 0 y s + component 1 y s + component 2 y s) 0 T);
    [|exact Hx].
  intros z Hz. exact (total_derivative _ _ _ _ _ _ _ _ _ HK Hy Hz).
Qed.

(** C3, kept to exact arithmetic: over the real numbers, for every rate
    quadruple the three components of dPdt(P, t, K) sum to zero for every
    population vector P and time t; hence the total population is the same
    at every time of an exact trajectory of dP/dt = K.P, and from
    P0 = [0, 0.25, 0.75] it equals 1 at every time, in particular at every
    sample of the time grid. *)
Theorem population_conserved (k_em k_ISC k_rISC k_nr : R) :
  exists (K : matrix R) (y0 : vec R) (g : ndrange),
    make_K_matrix [k_em; k_ISC; k_rISC; k_nr] = Some K /\
    P0 = Some y0 /\ t = Some g /\
    (forall p0 p1 p2 s : R,
       exists d : vec R, dPdt [p0; p1; p2] s K = Some d /\ vsum d = 0) /\
    (forall (z0 : vec R) (T : R) (y : R -> vec R),
       solution K z0 T y ->
       forall x : R, 0 <= x <= T -> vsum (y x) = vsum z0) /\
    (forall (T : R) (y : R -> vec R),
       solution K y0 T y ->
       forall x : R, 0 <= x <= T -> vsum (y x) = 1) /\
    (forall y : R -> vec R,
       solution K y0 1e-2 y ->
       forall (i : Z) (s : R), sample g i = Some s -> vsum (y s) = 1).
Proof.
  pose proof (make_K_matrix_R k_em k_ISC k_rISC k_nr) as HK.
  eexists. eexists. eexists.
  split; [exact HK|]. split; [exact P0_value|]. split; [exact t_value|].
  assert (Hone : vsum [0; 0.25; 0.75] = 1)
    by (cbv [vsum fold_left sc_add sc_zero Scalar_R]; lra).
  split.
  { intros p0 p1 p2 s. eexists. split; [apply (dPdt_make_K _ _ _ _ _ _ _ _ _ HK)|].
    cbv [vsum fold_left sc_add sc_zero Scalar_R]. ring. }
  split.
  { intros z0 T y Hy x Hx. exact (total_conserved _ _ _ _ _ _ _ _ _ HK Hy Hx). }
  split.
  { intros T y Hy x Hx.
    rewrite (total_conserved _ _ _ _ _ _ _ _ _ HK Hy Hx). exact Hone. }
  intros y Hy i s Hs.
  destruct (sample_t _ i s t_value Hs) as (_ & _ & _ & Hr).
  rewrite (total_conserved _ _ _ _ _ _ 1e-2 y s HK Hy) by lra. exact Hone.
Qed.

(** ** Exponentials and the two closed-form trajectories *)

Lemma derivable_pt_lim_exp_scal (k x : R) :
  derivable_pt_lim (fun s => exp (k * s)) x (k * exp (k * x)).
Proof.
  replace (k * exp (k * x)) with (exp (k * x) * (k * 1)) by ring.
  apply (derivable_pt_lim_comp (fun s => k * s) exp x (k * 1) (exp (k * x))).
  - exact (derivable_pt_lim_scal id k x 1 (derivable_pt_lim_id x)).
  - apply derivable_pt_lim_exp.
Qed.

Lemma derivable_pt_lim_exp_neg (x : R) :
  derivable_pt_lim (fun s => exp (- s)) x (- exp (- x)).
Proof.
  apply (derivable_pt_lim_ext (fun s => exp (-1 * s))).
  - intros z. f_equal. ring.
  - replace (- exp (- x)) with (-1 * exp (-1 * x)).
    + apply derivable_pt_lim_exp_scal.
    + replace (-1 * x) with (- x) by ring. ring.
Qed.

Lemma emission_only_solution (K : matrix R) (T : R) :
  make_K_matrix [1; 0; 0; 0] = Some K ->
  solution K [0; 0.25; 0.75] T emission_only.
Proof.
  intros HK. split.
  - unfold emission_only. rewrite Ropp_0, exp_0.
    f_equal; [lra|]. f_equal. lra.
  - intros s _. eexists. split.
    + unfold emission_only. apply (dPdt_make_K _ _ _ _ _ _ _ _ _ HK).
    + intros i Hi. cbn [List.length] in Hi.
      pose proof (derivable_pt_lim_exp_neg s) as He.
      destruct i as [|[|[|i]]]; [| | |lia]; cbn [nth];
        unfold component, emission_only; cbn [nth].
      * replace ((1 + 0) * (0.25 * exp (- s)))
          with (0.25 * (0 - - exp (- s))) by ring.
        apply (derivable_pt_lim_scal (fun z => 1 - exp (- z)) 0.25 s).
        apply (derivable_pt_lim_minus (fct_cte 1) (fun z => exp (- z)));
          [apply derivable_pt_lim_const | exact He].
      * replace (- (1 + 0 + 0) * (0.25 * exp (- s)) + 0 * 0.75)
          with (0.25 * - exp (- s)) by ring.
        exact (derivable_pt_lim_scal (fun z => exp (- z)) 0.25 s _ He).
      * replace (0 * (0.25 * exp (- s)) + - 0 * 0.75) with 0 by ring.
        apply (derivable_pt_lim_const 0.75).
Qed.

Lemma at_rest_solution (K : matrix R) (T : R) :
  make_K_matrix [0; 0; 0; 0] = Some K ->
  solution K [0; 0.25; 0.75] T at_rest.
Proof.
  intros HK. split; [reflexivity|].
  intros s _. eexists. split.
  - unfold at_rest. apply (dPdt_make_K _ _ _ _ _ _ _ _ _ HK).
  - intros i Hi. cbn [List.length] in Hi.
    destruct i as [|[|[|i]]]; [| | |lia]; cbn [nth];
      unfold component, at_rest; cbn [nth];
      match goal with |- derivable_pt_lim _ _ ?l => replace l with 0 by ring end;
      apply (derivable_pt_lim_const _ s).
Qed.

(** The grid's last time lies on the closed-form trajectory of the dye that
    only emits, and the populations there still add up to one. *)
Lemma population_conserved_witness :
  vsum (emission_only (99999999 * 1e-10)) = 1.
Proof.
  destruct (population_conserved 1 0 0 0)
    as (K & y0 & g & HK & HP & Hg & _ & _ & _ & Hgrid).
  rewrite P0_value in HP. injection HP as <-.
  rewrite t_value in Hg. injection Hg as <-.
  apply (Hgrid emission_only (emission_only_solution K 1e-2 HK) (-1)%Z).
  unfold sample. cbn. f_equal. lra.
Defined.

(** C3, as stated, fails: in binary64, for the rates (0.1, 0.2, 0.3, 0.4)
    and the population vector [0, 1, 0], dPdt returns
    [0.5, -0.7000000000000001, 0.2], whose components sum to -2^-54. *)
Lemma derivative_sum_binary64 :
  exists (K : matrix float) (d : vec float) (c : float),
    make_K_matrix [0.1; 0.2; 0.3; 0.4]%float = Some K /\
    dPdt [0; 1; 0]%float 0%float K = Some d /\
    d = [0.5; -0.7000000000000001; 0.2]%float /\
    vsum d = c /\
    c = (-0x1p-54)%float /\
    PrimFloat.eqb c 0 = false.
Proof.
  eexists. eexists. eexists.
  split; [vm_compute; reflexivity|].
  split; [vm_compute; reflexivity|].
  split; [reflexivity|].
  split; [vm_compute; reflexivity|].
  split; [reflexivity | vm_compute; reflexivity].
Qed.

(** ** No rates, no coupling, and the ground state *)

Lemma three_ext (u v : vec R) :
  List.length u = 3%nat -> List.length v = 3%nat ->
  nth 0 u 0 = nth 0 v 0 -> nth 1 u 0 = nth 1 v 0 -> nth 2 u 0 = nth 2 v 0 ->
  u = v.
Proof.
  destruct u as [|a [|b [|c [|e u]]]]; try discriminate.
  destruct v as [|a' [|b' [|c' [|e' v]]]]; try discriminate.
  cbn. intros _ _ -> -> ->. reflexivity.
Qed.

Lemma component_constant (i : nat) (y : R -> vec R) (T x : R) :
  (forall z, 0 <= z <= T -> exists l, derivable_pt_lim (component i y) z l /\ l = 0) ->
  0 <= x <= T -> component i y x = component i y 0.
Proof.
  intros Hd Hx.
  apply (zero_derivative_constant (component i y) 0 T); [|exact Hx].
  intros z Hz. destruct (Hd z Hz) as (l & Hl & ->). exact Hl.
Qed.

Lemma still_trajectory (K : matrix R) (y0 : vec R) (T : R) (y : R -> vec R) (x : R) :
  make_K_matrix [0; 0; 0; 0] = Some K ->
  solution K y0 T y -> 0 <= x <= T -> y x = y0.
Proof.
  intros HK Hy Hx.
  assert (H0T : 0 <= 0 <= T) by lra.
  destruct (solution_at _ _ _ _ _ _ _ _ _ HK Hy Hx) as (Lx & _).
  destruct (solution_at _ _ _ _ _ _ _ _ _ HK Hy H0T) as (L0 & _).
  rewrite <- (proj1 Hy).
  apply three_ext; [exact Lx | exact L0 | | |];
    apply (component_constant _ y T x); try exact Hx;
    intros z Hz; eexists;
    destruct (solution_at _ _ _ _ _ _ _ _ _ HK Hy Hz) as (_ & D0 & D1 & D2);
    (split; [eassumption | ring]).
Qed.

(** C4: the matrix of the all-zero quadruple is the zero matrix, dPdt is
    then the zero vector for every population vector and time, and a
    trajectory from any initial vector stays at that vector, at every time
    and so at every sample of the grid. *)
Theorem zero_rates_constant :
  exists (K : matrix R) (g : ndrange),
    make_K_matrix [0; 0; 0; 0] = Some K /\ t = Some g /\
    K = zeros2 3 3 /\
    (forall p0 p1 p2 s : R, dPdt [p0; p1; p2] s K = Some (zeros 3)) /\
    (forall (y0 : vec R) (T : R) (y : R -> vec R),
       solution K y0 T y -> forall x : R, 0 <= x <= T -> y x = y0) /\
    (forall (y0 : vec R) (y : R -> vec R),
       solution K y0 1e-2 y ->
       forall (i : Z) (s : R), sample g i = Some s -> y s = y0).
Proof.
  pose proof (make_K_matrix_R 0 0 0 0) as HK.
  eexists. eexists. split; [exact HK|]. split; [exact t_value|].
  split.
  { cbv [zeros2 zeros repeat sc_zero Scalar_R].
    rewrite !Rplus_0_r, Ropp_0. reflexivity. }
  split.
  { intros p0 p1 p2 s. rewrite (dPdt_make_K _ _ _ _ _ _ _ _ _ HK).
    cbv [zeros repeat sc_zero Scalar_R].
    rewrite !Rplus_0_r, Ropp_0, !Rmult_0_l, Rplus_0_r. reflexivity. }
  split.
  { intros y0 T y Hy x Hx. exact (still_trajectory _ _ _ _ _ HK Hy Hx). }
  intros y0 y Hy i s Hs.
  destruct (sample_t _ i s t_value Hs) as (_ & _ & _ & Hr).
  apply (still_trajectory _ _ 1e-2 y s HK Hy). lra.
Qed.

Lemma zero_rates_constant_witness : at_rest 1e-3 = [0; 0.25; 0.75].
Proof.
  destruct zero_rates_constant as (K & g & HK & _ & _ & _ & Hc & _).
  apply (Hc [0; 0.25; 0.75] 1 at_rest (at_rest_solution K 1 HK)).
  lra.
Defined.

Lemma uncoupled_trajectory (k_em k_nr : R) (K : matrix R)
      (y0 : vec R) (T : R) (y : R -> vec R) (x : R) :
  make_K_matrix [k_em; 0; 0; k_nr] = Some K ->
  solution K y0 T y -> 0 <= x <= T ->
  component 2 y x = nth 2 y0 0 /\
  component 1 y x = nth 1 y0 0 * exp (- (k_em + 0 + k_nr) * x).
Proof.
  intros HK Hy Hx.
  assert (E0 : forall i, component i y 0 = nth i y0 0)
    by (intros i; unfold component; now rewrite (proj1 Hy)).
  rewrite <- !E0. split.
  - apply (component_constant _ y T x); [|exact Hx].
    intros z Hz. eexists.
    destruct (solution_at _ _ _ _ _ _ _ _ _ HK Hy Hz) as (_ & _ & _ & D2).
    split; [exact D2 | ring].
  - set (k := k_em + 0 + k_nr) in *.
    assert (Hg : component 1 y x * exp (k * x) = component 1 y 0 * exp (k * 0)).
    { apply (zero_derivative_constant
               (fun s => component 1 y s * exp (k * s)) 0 T); [|exact Hx].
      intros z Hz.
      destruct (solution_at _ _ _ _ _ _ _ _ _ HK Hy Hz) as (_ & _ & D1 & _).
      pose proof (derivable_pt_lim_mult _ _ _ _ _ D1
                    (derivable_pt_lim_exp_scal k z)) as Hm.
      match type of Hm with derivable_pt_lim _ _ ?l =>
        replace 0 with l by (unfold k; ring)
      end.
      exact Hm. }
    rewrite Rmult_0_r, exp_0, Rmult_1_r in Hg. rewrite <- Hg.
    rewrite Rmult_assoc, <- exp_plus.
    replace (k * x + - k * x) with 0 by ring.
    rewrite exp_0. ring.
Qed.

(** C5: with k_ISC = 0 and k_rISC = 0 the T1 component of dPdt(P, t, K) is
    zero and the S1 component is -(k_em + k_ISC + k_nr) * P_S1, for every
    population vector; along a trajectory T1 keeps its initial population
    and S1 is its initial population times exp(-(k_em + k_ISC + k_nr) t). *)
Theorem uncoupled_decay (k_em k_nr : R) :
  exists K : matrix R,
    make_K_matrix [k_em; 0; 0; k_nr] = Some K /\
    (forall p0 p1 p2 s : R,
       exists d0 d1 d2 : R,
         dPdt [p0; p1; p2] s K = Some [d0; d1; d2] /\
         d2 = 0 /\ d1 = - (k_em + 0 + k_nr) * p1) /\
    (forall (y0 : vec R) (T : R) (y : R -> vec R),
       solution K y0 T y ->
       forall x : R, 0 <= x <= T ->
         component 2 y x = nth 2 y0 0 /\
         component 1 y x = nth 1 y0 0 * exp (- (k_em + 0 + k_nr) * x)).
Proof.
  pose proof (make_K_matrix_R k_em 0 0 k_nr) as HK.
  eexists. split; [exact HK|]. split.
  - intros p0 p1 p2 s. do 3 eexists.
    split; [apply (dPdt_make_K _ _ _ _ _ _ _ _ _ HK)|]. split; ring.
  - intros y0 T y Hy x Hx. exact (uncoupled_trajectory _ _ _ _ _ _ _ HK Hy Hx).
Qed.

Lemma uncoupled_decay_witness :
  component 2 emission_only 1 = 0.75 /\
  component 1 emission_only 1 = 0.25 * exp (- (1 + 0 + 0) * 1).
Proof.
  destruct (uncoupled_decay 1 0) as (K & HK & _ & Hc).
  apply (Hc [0; 0.25; 0.75] 2 emission_only (emission_only_solution K 2 HK)).
  lra.
Defined.

Lemma ground_state_monotone (k_em k_ISC k_rISC k_nr : R) (K : matrix R)
      (y0 : vec R) (T : R) (y : R -> vec R) (a b : R) :
  0 <= k_em -> 0 <= k_nr ->
  make_K_matrix [k_em; k_ISC; k_rISC; k_nr] = Some K ->
  solution K y0 T y ->
  (forall s, 0 <= s <= T -> 0 <= component 1 y s) ->
  0 <= a -> a <= b -> b <= T ->
  component 0 y a <= component 0 y b.
Proof.
  intros Hem Hnr HK Hy Hpos Ha Hab Hb.
  destruct (Rle_lt_or_eq_dec a b Hab) as [Hlt | ->]; [|lra].
  destruct (MVT_cor2 (component 0 y)
              (fun c => (k_em + k_nr) * component 1 y c) a b Hlt)
    as (c & Hc & Hac).
  - intros z Hz.
    assert (Hz' : 0 <= z <= T) by lra.
    now destruct (solution_at _ _ _ _ _ _ _ _ _ HK Hy Hz') as (_ & D0 & _).
  - assert (0 <= component 1 y c) by (apply Hpos; lra).
    assert (0 <= (k_em + k_nr) * component 1 y c * (b - a))
      by (repeat apply Rmult_le_pos; lra).
    lra.
Qed.

(** C10: for non-negative rate constants and a population vector whose S1
    component is non-negative, the S0 component of dPdt is
    (k_em + k_nr) * P_S1 and is non-negative; along a trajectory whose S1
    population stays non-negative the S0 population never decreases. *)
Theorem ground_state_gains (k_em k_ISC k_rISC k_nr : R) :
  0 <= k_em -> 0 <= k_ISC -> 0 <= k_rISC -> 0 <= k_nr ->
  exists K : matrix R,
    make_K_matrix [k_em; k_ISC; k_rISC; k_nr] = Some K /\
    (forall p0 p1 p2 s : R,
       0 <= p1 ->
       exists d0 d1 d2 : R,
         dPdt [p0; p1; p2] s K = Some [d0; d1; d2] /\
         d0 = (k_em + k_nr) * p1 /\ 0 <= d0) /\
    (forall (y0 : vec R) (T : R) (y : R -> vec R),
       solution K y0 T y ->
       (forall s : R, 0 <= s <= T -> 0 <= component 1 y s) ->
       forall a b : R, 0 <= a -> a <= b -> b <= T ->
         component 0 y a <= component 0 y b).
Proof.
  intros Hem HISC HrISC Hnr.
  pose proof (make_K_matrix_R k_em k_ISC k_rISC k_nr) as HK.
  eexists. split; [exact HK|]. split.
  - intros p0 p1 p2 s Hp1. do 3 eexists.
    split; [apply (dPdt_make_K _ _ _ _ _ _ _ _ _ HK)|].
    split; [reflexivity|]. apply Rmult_le_pos; lra.
  - intros y0 T y Hy Hpos a b Ha Hab Hb.
    exact (ground_state_monotone _ _ _ _ _ _ _ _ _ _ Hem Hnr HK Hy Hpos Ha Hab Hb).
Qed.

Lemma ground_state_gains_witness :
  (exists d0 d1 d2 : R,
     (K <- make_K_matrix [1; 0; 0; 0] ;; dPdt [0; 0.25; 0.75] 0 K)
     = Some [d0; d1; d2] /\ d0 = (1 + 0) * 0.25 /\ 0 <= d0) /\
  component 0 emission_only 0 <= component 0 emission_only 1.
Proof.
  destruct (ground_state_gains 1 0 0 0) as (K & HK & Hd & Hm); try lra.
  split.
  - rewrite HK. cbn [bind]. apply Hd. lra.
  - apply (Hm [0; 0.25; 0.75] 2 emission_only (emission_only_solution K 2 HK));
      try lra.
    intros s _. unfold component, emission_only. cbn [nth].
    pose proof (exp_pos (- s)). lra.
Defined.

Section Autonomy.

Context {A : Type} `{Scalar A}.

(** C9: dPdt does not depend on its time argument: for every population
    vector P, matrix K and times t1 and t2, dPdt(P, t1, K) = dPdt(P, t2, K). *)
Theorem dPdt_autonomous (P : vec A) (K : matrix A) (t1 t2 : A) :
  dPdt P t1 K = dPdt P t2 K.
Proof. reflexivity. Qed.

End Autonomy.

(** ** The loop over the models *)

Section DriverFacts.

Variable odeint :
  (vec R -> R -> matrix R -> option (vec R)) ->
  vec R -> ndrange -> matrix R -> option (list (vec R)).
Variable render : ndrange -> list (vec R) -> string -> string -> option unit.

(** One iteration either completes, with one integration and one figure, or
    raises before the integration, or raises in it or in the figure. *)
Lemma loop_body_cases (rates : list (list R)) (i : nat) (mdl : string)
      (nb : notebook) :
  (exists K : matrix R,
     loop_body odeint render rates i mdl nb
     = (with_log nb [Odeint (nb_P0 nb) (nb_t nb) K; Savefig (svg_name mdl)],
        Some tt)) \/
  loop_body odeint render rates i mdl nb = (nb, None) \/
  (exists K : matrix R,
     loop_body odeint render rates i mdl nb
     = (with_log nb [Odeint (nb_P0 nb) (nb_t nb) K], None)).
Proof.
  unfold loop_body, plot_pops, bind_cell, lift, global, emit, with_log.
  destruct (nth_error rates i) as [ks|]; [|now right; left].
  destruct (make_K_matrix ks) as [K|]; [|now right; left].
  cbn [nb_P0 nb_t nb_log].
  destruct (odeint dPdt (nb_P0 nb) (nb_t nb) K) as [sol|].
  - destruct (render (nb_t nb) sol mdl (svg_name mdl)).
    + left. exists K. cbn -[svg_name]. now rewrite <- app_assoc.
    + right; right. now exists K.
  - right; right. now exists K.
Qed.

Lemma loop_body_globals (rates : list (list R)) (i : nat) (mdl : string)
      (nb : notebook) :
  nb_P0 (fst (loop_body odeint render rates i mdl nb)) = nb_P0 nb /\
  nb_t (fst (loop_body odeint render rates i mdl nb)) = nb_t nb.
Proof.
  destruct (loop_body_cases rates i mdl nb) as [(K & ->) | [-> | (K & ->)]];
    now split.
Qed.

Lemma integrations_app (l1 l2 : list event) :
  integrations (l1 ++ l2) = integrations l1 ++ integrations l2.
Proof. apply flat_map_app. Qed.

Lemma saved_app (l1 l2 : list event) :
  saved (l1 ++ l2) = saved l1 ++ saved l2.
Proof. apply flat_map_app. Qed.

(** Whatever the table and however the run ends, the globals are those of
    the start and every integration was asked for from them. *)
Lemma loop_globals (rates : list (list R)) (ms : list (nat * string)) :
  forall nb : notebook,
    nb_P0 (fst (loop odeint render rates ms nb)) = nb_P0 nb /\
    nb_t (fst (loop odeint render rates ms nb)) = nb_t nb /\
    exists evs : list event,
      nb_log (fst (loop odeint render rates ms nb)) = nb_log nb ++ evs /\
      Forall (fun c => fst c = (nb_P0 nb, nb_t nb)) (integrations evs).
Proof.
  induction ms as [|[i mdl] ms IH]; intros nb.
  - cbn. repeat split. exists []. now rewrite app_nil_r.
  - cbn [loop]. unfold bind_cell.
    destruct (loop_body_cases rates i mdl nb) as [(K & ->) | [-> | (K & ->)]].
    + destruct (IH (with_log nb [Odeint (nb_P0 nb) (nb_t nb) K;
                                 Savefig (svg_name mdl)]))
        as (HP & Ht & evs & Hlog & Hall).
      cbn [with_log nb_P0 nb_t nb_log] in *.
      split; [exact HP|]. split; [exact Ht|].
      eexists. split; [rewrite Hlog, <- app_assoc; reflexivity|].
      rewrite integrations_app. apply Forall_app. split; [|exact Hall].
      repeat constructor.
    + cbn. repeat split. exists []. now rewrite app_nil_r.
    + cbn. repeat split. eexists. split; [reflexivity|]. repeat constructor.
Qed.

(** A run that completes has integrated and has written one figure for
    each model, in the order of the table. *)
Lemma loop_completed (rates : list (list R)) (ms : list (nat * string)) :
  forall nb nb' : notebook,
    loop odeint render rates ms nb = (nb', Some tt) ->
    saved (nb_log nb') = saved (nb_log nb) ++ map (fun m => svg_name (snd m)) ms /\
    List.length (integrations (nb_log nb'))
    = (List.length (integrations (nb_log nb)) + List.length ms)%nat.
Proof.
  induction ms as [|[i mdl] ms IH]; intros nb nb'.
  - cbn. intros [= <-]. now rewrite app_nil_r, Nat.add_0_r.
  - cbn [loop]. unfold bind_cell.
    destruct (loop_body_cases rates i mdl nb) as [(K & ->) | [-> | (K & ->)]];
      try discriminate.
    intros Hrun. apply IH in Hrun. destruct Hrun as [Hs Hn].
    cbn [with_log nb_log] in Hs, Hn.
    rewrite saved_app in Hs. rewrite integrations_app, length_app in Hn.
    cbn in Hs, Hn. cbn [map snd List.length].
    split; [rewrite Hs, <- app_assoc; reflexivity | lia].
Qed.

Lemma enumerate_names (mdls : list string) :
  map snd (enumerate mdls) = mdls /\
  List.length (enumerate mdls) = List.length mdls.
Proof.
  unfold enumerate. generalize 0%nat.
  induction mdls as [|m mdls IH]; intros s; [now split|].
  cbn. destruct (IH (S s)) as [-> ->]. now split.
Qed.

End DriverFacts.

Lemma notebook_init_value :
  notebook_init
  = Some {| nb_P0 := [0; 0.25; 0.75];
            nb_t := {| r_start := 0; r_step := 1e-10; r_len := 100000000 |};
            nb_log := [] |}.
Proof. unfold notebook_init. now rewrite P0_value, t_value. Qed.

(** C7: the initial population is the constant [0, 0.25, 0.75], whatever
    the table of rates; no iteration of the loop changes P0 or the time
    grid; every integration of a run is asked for from that P0 over that
    grid, and a run that completes has integrated once for each model. *)
Theorem fixed_P0_and_grid :
  exists nb0 : notebook,
    notebook_init = Some nb0 /\
    P0 = Some (nb_P0 nb0) /\ t = Some (nb_t nb0) /\
    nb_P0 nb0 = [0; 0.25; 0.75] /\
    (forall odeint render rates i mdl nb,
       nb_P0 (fst (loop_body odeint render rates i mdl nb)) = nb_P0 nb /\
       nb_t (fst (loop_body odeint render rates i mdl nb)) = nb_t nb) /\
    (forall odeint render mdls rates,
       nb_P0 (fst (run odeint render mdls rates nb0)) = nb_P0 nb0 /\
       nb_t (fst (run odeint render mdls rates nb0)) = nb_t nb0 /\
       Forall (fun c => fst c = (nb_P0 nb0, nb_t nb0))
              (integrations (nb_log (fst (run odeint render mdls rates nb0)))) /\
       (snd (run odeint render mdls rates nb0) = Some tt ->
        List.length (integrations (nb_log (fst (run odeint render mdls rates nb0))))
        = List.length mdls)).
Proof.
  eexists. split; [exact notebook_init_value|]. cbn [nb_P0 nb_t].
  split; [exact P0_value|]. split; [exact t_value|]. split; [reflexivity|].
  split; [intros; apply loop_body_globals|].
  intros odeint render mdls rates. unfold run.
  match goal with |- context [loop odeint render rates ?ms ?nb] =>
    destruct (loop_globals odeint render rates ms nb) as (HP & Ht & evs & Hlog & Hall);
    destruct (loop odeint render rates ms nb) as [nb' r] eqn:Hrun
  end.
  cbn [fst snd nb_P0 nb_t nb_log] in *.
  split; [exact HP|]. split; [exact Ht|]. split.
  - rewrite Hlog. exact Hall.
  - intros ->. apply loop_completed in Hrun. destruct Hrun as [_ Hn].
    rewrite Hn. cbn. apply enumerate_names.
Qed.

(** Two dyes run through an integrator that returns the initial vector for
    its only sample and a renderer that writes every figure: both
    integrations happen. *)
Lemma fixed_P0_and_grid_witness :
  exists nb0 : notebook,
    notebook_init = Some nb0 /\
    List.length
      (integrations
         (nb_log (fst (run (fun _ y0 _ _ => Some [y0]) (fun _ _ _ _ => Some tt) ["dye 1"; "dye 2"]%string
                           [[1; 0; 0; 0]; [2; 1; 1; 0]] nb0))))
    = 2%nat.
Proof.
  destruct fixed_P0_and_grid as (nb0 & Hinit & _ & _ & _ & _ & Hrun).
  exists nb0. split; [exact Hinit|].
  apply (Hrun (fun _ y0 _ _ => Some [y0]) (fun _ _ _ _ => Some tt) ["dye 1"; "dye 2"]%string
              [[1; 0; 0; 0]; [2; 1; 1; 0]]).
  reflexivity.
Defined.

(** ** File names *)

Lemma prefix_empty (s : string) : prefix "" s = true.
Proof. now destruct s. Qed.

Lemma replace_space (s : string) :
  replace " " "_" s = underscore_spaces s.
Proof.
  change (replace_from " " "_" 0 s = underscore_spaces s).
  induction s as [|c s IH]; [reflexivity|].
  cbn [replace_from underscore_spaces prefix].
  destruct (ascii_dec " " c) as [<- | Hc].
  - cbn. now rewrite prefix_empty, IH.
  - destruct (Ascii.eqb_spec c " ") as [-> | _]; [now elim Hc|].
    now rewrite IH.
Qed.

(** * Further properties of the notebook's code *)

(** ** Indexing *)

Section Indexing.

Context {A : Type}.

Lemma getitem_nat (l : list A) (i : nat) :
  (i < List.length l)%nat -> Py.getitem l (Z.of_nat i) = nth_error l i.
Proof.
  intros Hi. unfold Py.getitem.
  rewrite norm_index_in by lia. cbn [bind]. now rewrite Nat2Z.id.
Qed.

Lemma getitem_minus_one (l : list A) (d : A) :
  l <> [] -> Py.getitem l (-1) = Some (last l d).
Proof.
  intros Hl. unfold Py.getitem, Py.norm_index.
  assert (Hn : (0 < List.length l)%nat) by (destruct l; [easy | cbn; lia]).
  change (-1 <? 0)%Z with true. cbn iota.
  destruct (Z.leb_spec 0 (-1 + Z.of_nat (List.length l))); [|lia].
  destruct (Z.ltb_spec (-1 + Z.of_nat (List.length l)) (Z.of_nat (List.length l)));
    [|lia].
  cbn [andb bind].
  replace (Z.to_nat (-1 + Z.of_nat (List.length l))) with (List.length l - 1)%nat
    by lia.
  clear -Hl. induction l as [|x [|x' l] IH]; [easy | reflexivity |].
  cbn [List.length Nat.sub nth_error last] in *.
  rewrite Nat.sub_0_r in IH. now apply IH.
Qed.

Lemma getitem_none (l : list A) (i : Z) :
  Py.getitem l i = None <->
  (i < - Z.of_nat (List.length l) \/ Z.of_nat (List.length l) <= i)%Z.
Proof.
  unfold Py.getitem, Py.norm_index.
  destruct (Z.ltb_spec i 0);
    match goal with |- context [(?a && ?b)%bool] =>
      destruct a eqn:Ha; destruct b eqn:Hb
    end; cbn [andb bind];
    try (apply Z.leb_le in Ha); try (apply Z.leb_gt in Ha);
    try (apply Z.ltb_lt in Hb); try (apply Z.ltb_ge in Hb);
    try (split; [discriminate | lia]); try (split; [lia | reflexivity]);
    (split; [|lia]);
    intros Hn; apply nth_error_None in Hn; lia.
Qed.

End Indexing.

(** ** [make_K_matrix] on any number of arguments *)

Section RateMatrixArity.

Context {A : Type} `{Scalar A}.
Local Open Scope scalar_scope.

Lemma make_K_matrix_reads (rates : list A) (a b c l : A) :
  Py.getitem rates 0 = Some a -> Py.getitem rates 1 = Some b ->
  Py.getitem rates 2 = Some c -> Py.getitem rates (-1) = Some l ->
  make_K_matrix rates
  = Some [[sc_zero; a + l; sc_zero]; [sc_zero; - (a + b + l); c];
          [sc_zero; b; - c]].
Proof.
  intros H0 H1 H2 Hl. unfold make_K_matrix.
  rewrite H0, H1, H2, Hl. reflexivity.
Qed.

Lemma getitem_first_three (a b c : A) (more : list A) :
  Py.getitem (a :: b :: c :: more) 0 = Some a /\
  Py.getitem (a :: b :: c :: more) 1 = Some b /\
  Py.getitem (a :: b :: c :: more) 2 = Some c /\
  Py.getitem (a :: b :: c :: more) (-1) = Some (last more c).
Proof.
  split; [exact (getitem_nat (a :: b :: c :: more) 0 ltac:(cbn; lia))|].
  split; [exact (getitem_nat (a :: b :: c :: more) 1 ltac:(cbn; lia))|].
  split; [exact (getitem_nat (a :: b :: c :: more) 2 ltac:(cbn; lia))|].
  rewrite (getitem_minus_one _ c) by discriminate.
  f_equal. now destruct more.
Qed.

Lemma make_K_matrix_length (rates : list A) (K : matrix A) :
  make_K_matrix rates = Some K -> (3 <= List.length rates)%nat.
Proof.
  destruct rates as [|a [|b [|c more]]]; try discriminate.
  intros _. cbn. lia.
Qed.

(** X1: The rate read as k_nr is the last argument, whatever the number of
    arguments: with three arguments it is the third, which is also read as
    k_rISC; arguments between the third and the last are not read. *)
Theorem make_K_matrix_last_argument (a b c : A) (more : list A) :
  make_K_matrix (a :: b :: c :: more)
  = Some [[sc_zero; a + last more c; sc_zero];
          [sc_zero; - (a + b + last more c); c];
          [sc_zero; b; - c]].
Proof.
  destruct (getitem_first_three a b c more) as (H0 & H1 & H2 & Hl).
  exact (make_K_matrix_reads _ _ _ _ _ H0 H1 H2 Hl).
Qed.

(** X2: The call raises exactly when fewer than three arguments are given. *)
Theorem make_K_matrix_raises (rates : list A) :
  make_K_matrix rates = None <-> (List.length rates < 3)%nat.
Proof.
  destruct rates as [|a [|b [|c more]]]; cbn [List.length].
  - split; [lia | reflexivity].
  - split; [lia | reflexivity].
  - split; [lia | reflexivity].
  - destruct (getitem_first_three a b c more) as (H0 & H1 & H2 & Hl).
    rewrite (make_K_matrix_reads _ _ _ _ _ H0 H1 H2 Hl).
    split; [discriminate | lia].
Qed.

End RateMatrixArity.

Example make_K_matrix_three_arguments :
  make_K_matrix [7; 5; 3]%Z = Some [[0; 10; 0]; [0; -15; 3]; [0; 5; -3]]%Z.
Proof. reflexivity. Qed.

Example make_K_matrix_five_arguments :
  make_K_matrix [7; 5; 3; 100; 2]%Z = Some [[0; 9; 0]; [0; -14; 3]; [0; 5; -3]]%Z.
Proof. reflexivity. Qed.

Lemma make_K_matrix_raises_witness : make_K_matrix [7; 5]%Z = None.
Proof. apply make_K_matrix_raises. cbn. lia. Defined.

(** ** [dPdt] and [np.dot]: shapes *)

Section DotShape.

Context {A : Type} `{Scalar A}.

Lemma dot_none_iff (P : vec A) (K : matrix A) :
  dot K P = None <->
  exists row : list A, In row K /\ List.length row <> List.length P.
Proof.
  unfold dot.
  induction K as [|r K IH]; cbn [forallb].
  - split; [discriminate | intros (row & [] & _)].
  - destruct (Nat.eqb_spec (List.length r) (List.length P)) as [E|E];
      cbn [andb].
    + destruct (forallb (fun row => Nat.eqb (List.length row) (List.length P)) K).
      * split; [discriminate|].
        intros (row & [<- | Hin] & Hne); [easy|].
        destruct IH as [_ IH]. discriminate IH. now exists row.
      * split; [|reflexivity]. intros _.
        destruct IH as [IH _]. destruct (IH eq_refl) as (row & Hin & Hne).
        exists row. split; [now right | exact Hne].
    + split; [|reflexivity]. intros _. exists r. split; [now left | exact E].
Qed.

(** X3: For a matrix K with at least one row, [dPdt] raises exactly when
    some row of K is not as long as P; when it returns, the derivative has
    one component for each row of K.  (A matrix without rows is not told
    apart from its shape by its list of rows, and is left out.) *)
Theorem dPdt_shape (P : vec A) (s : A) (K : matrix A) :
  K <> [] ->
  (dPdt P s K = None <->
   exists row : list A, In row K /\ List.length row <> List.length P) /\
  (forall d : vec A, dPdt P s K = Some d -> List.length d = List.length K).
Proof.
  intros _. unfold dPdt. split; [apply dot_none_iff|].
  intros d. unfold dot.
  destruct (forallb (fun row => Nat.eqb (List.length row) (List.length P)) K);
    [|discriminate].
  intros [= <-]. apply length_map.
Qed.

End DotShape.

Lemma dPdt_shape_witness :
  dPdt [1; 2]%Z 0%Z [[0; 11; 0]; [0; -12; 2]; [0; 1; -2]]%Z = None.
Proof.
  apply (proj1 (dPdt_shape [1; 2]%Z 0%Z [[0; 11; 0]; [0; -12; 2]; [0; 1; -2]]%Z
                  ltac:(discriminate))).
  exists [0; 11; 0]%Z. split; [now left | discriminate].
Defined.

(** ** Stationary populations and the ground state without coupling *)

(** X5: When S1 decays (k_em + k_nr is not zero) and T1 feeds S1 (k_rISC is not
    zero), the derivative vanishes exactly on the population vectors with
    nothing in S1 and nothing in T1. *)
Theorem stationary_populations (k_em k_ISC k_rISC k_nr p0 p1 p2 s : R) :
  k_em + k_nr <> 0 -> k_rISC <> 0 ->
  exists K : matrix R,
    make_K_matrix [k_em; k_ISC; k_rISC; k_nr] = Some K /\
    (dPdt [p0; p1; p2] s K = Some (zeros 3) <-> p1 = 0 /\ p2 = 0).
Proof.
  intros Hdecay Hfeed.
  pose proof (make_K_matrix_R k_em k_ISC k_rISC k_nr) as HK.
  eexists. split; [exact HK|].
  rewrite (dPdt_make_K _ _ _ _ _ _ _ _ _ HK).
  cbv [zeros repeat sc_zero Scalar_R]. split.
  - intros [= H0 H1 H2].
    assert (Hp1 : p1 = 0).
    { destruct (Rmult_integral _ _ H0) as [E|E]; [contradiction | exact E]. }
    subst p1. split; [reflexivity|].
    assert (Hm : k_rISC * p2 = 0) by lra.
    destruct (Rmult_integral _ _ Hm) as [E|E]; [contradiction | exact E].
  - intros [-> ->]. now rewrite !Rmult_0_r, !Rplus_0_r.
Qed.

Lemma stationary_populations_witness :
  exists K : matrix R,
    make_K_matrix [1; 2; 3; 4] = Some K /\
    (dPdt [5; 0; 0] 0 K = Some (zeros 3) <-> 0 = 0 /\ 0 = 0).
Proof.
  apply (stationary_populations 1 2 3 4 5 0 0 0); lra.
Defined.

(** X6: Without coupling (k_ISC = 0 and k_rISC = 0) the ground state receives
    what S1 loses: along a trajectory
    S0(x) = S0(0) + S1(0) * (1 - exp(-(k_em + 0 + k_nr) x)). *)
Theorem uncoupled_ground_state (k_em k_nr : R) (K : matrix R)
        (y0 : vec R) (T : R) (y : R -> vec R) (x : R) :
  make_K_matrix [k_em; 0; 0; k_nr] = Some K ->
  solution K y0 T y -> 0 <= x <= T ->
  component 0 y x
  = nth 0 y0 0 + nth 1 y0 0 * (1 - exp (- (k_em + 0 + k_nr) * x)).
Proof.
  intros HK Hy Hx.
  assert (H0T : 0 <= 0 <= T) by lra.
  destruct (solution_at _ _ _ _ _ _ _ _ _ HK Hy Hx) as (Lx & _).
  destruct (solution_at _ _ _ _ _ _ _ _ _ HK Hy H0T) as (L0 & _).
  pose proof (total_conserved _ _ _ _ _ _ _ _ _ HK Hy Hx) as Htot.
  destruct (uncoupled_trajectory _ _ _ _ _ _ _ HK Hy Hx) as [H2 H1].
  rewrite (vsum_three _ Lx) in Htot.
  rewrite <- (proj1 Hy) in Htot at 1. rewrite (vsum_three _ L0) in Htot.
  fold (component 0 y x) (component 1 y x) (component 2 y x) in Htot.
  rewrite <- (proj1 Hy) in H1, H2 |- *.
  rewrite H1, H2 in Htot. lra.
Qed.

Lemma uncoupled_ground_state_witness :
  component 0 emission_only 1 = 0 + 0.25 * (1 - exp (- (1 + 0 + 0) * 1)).
Proof.
  apply (uncoupled_ground_state 1 0 _ [0; 0.25; 0.75] 2 emission_only 1
           (make_K_matrix_R 1 0 0 0) (emission_only_solution _ 2 (make_K_matrix_R 1 0 0 0))).
  lra.
Defined.

(** ** [np.arange] with a positive step *)

(** X11: For a positive step and stop at or before start the grid is empty:
    every index raises. *)
Theorem arange_empty (start stop step : R) (i : Z) :
  0 < step -> stop <= start ->
  exists g : ndrange,
    arange start stop step = Some g /\ r_len g = 0%Z /\ sample g i = None.
Proof.
  intros Hstep Hle. unfold arange.
  destruct (Req_dec_T step 0) as [E|_]; [lra|].
  set (q := (stop - start) / step).
  assert (Hq : q * step = stop - start) by (unfold q; field; lra).
  assert (Hq0 : q <= 0) by (apply Rnot_lt_le; intros Hp;
    assert (0 < q * step) by (apply Rmult_lt_0_compat; lra); lra).
  destruct (Zceil_bound q) as [Hlo Hhi].
  assert (Hn : (Zceil q <= 0)%Z) by (apply Z.lt_succ_r, lt_IZR; rewrite succ_IZR; lra).
  eexists. split; [reflexivity|]. cbn [r_len].
  rewrite Z.max_l by lia. split; [reflexivity|].
  unfold sample, Py.norm_index. cbn [r_len].
  destruct (i <? 0)%Z;
    match goal with |- context [(?a && ?b)%bool] =>
      destruct a eqn:Ha; destruct b eqn:Hb; try reflexivity
    end; apply Z.leb_le in Ha; apply Z.ltb_lt in Hb; lia.
Qed.

Lemma arange_empty_witness :
  exists g : ndrange,
    arange 1e-2 0 1e-10 = Some g /\ r_len g = 0%Z /\ sample g (-1) = None.
Proof. apply arange_empty; lra. Defined.

(** ** The loop: when it completes, where it stops, what it pairs *)

Section LoopFacts.

Variable odeint :
  (vec R -> R -> matrix R -> option (vec R)) ->
  vec R -> ndrange -> matrix R -> option (list (vec R)).
Variable render : ndrange -> list (vec R) -> string -> string -> option unit.

Lemma loop_body_eq (rates : list (list R)) (i : nat) (mdl : string)
      (nb : notebook) :
  loop_body odeint render rates i mdl nb
  = match nth_error rates i with
    | None => (nb, None)
    | Some ks =>
        match make_K_matrix ks with
        | None => (nb, None)
        | Some K =>
            match odeint dPdt (nb_P0 nb) (nb_t nb) K with
            | Some sol =>
                match render (nb_t nb) sol mdl (svg_name mdl) with
                | Some _ =>
                    (with_log nb
                       (iteration_events (nb_P0 nb) (nb_t nb) (K, mdl)),
                     Some tt)
                | None => (with_log nb [Odeint (nb_P0 nb) (nb_t nb) K], None)
                end
            | None => (with_log nb [Odeint (nb_P0 nb) (nb_t nb) K], None)
            end
        end
    end.
Proof.
  unfold loop_body, plot_pops, bind_cell, lift, global, emit, with_log,
    iteration_events.
  destruct (nth_error rates i) as [ks|]; [|reflexivity].
  destruct (make_K_matrix ks) as [K|]; [|reflexivity].
  cbn [nb_P0 nb_t nb_log fst snd].
  destruct (odeint dPdt (nb_P0 nb) (nb_t nb) K) as [sol|]; [|reflexivity].
  destruct (render (nb_t nb) sol mdl (svg_name mdl)); [|reflexivity].
  now rewrite <- app_assoc.
Qed.

Lemma loop_completes_iff (rates : list (list R)) (ms : list (nat * string)) :
  forall nb : notebook,
    snd (loop odeint render rates ms nb) = Some tt <->
    Forall (iteration_returns odeint render rates nb) ms.
Proof.
  induction ms as [|[i mdl] ms IH]; intros nb.
  - cbn. split; [constructor | reflexivity].
  - cbn [loop]. unfold bind_cell. rewrite loop_body_eq.
    split.
    + destruct (nth_error rates i) as [ks|] eqn:Hks; [|discriminate].
      destruct (make_K_matrix ks) as [K|] eqn:HK; [|discriminate].
      destruct (odeint dPdt (nb_P0 nb) (nb_t nb) K) as [sol|] eqn:Hsol;
        [|discriminate].
      destruct (render (nb_t nb) sol mdl (svg_name mdl)) as [[]|] eqn:Hren;
        [|discriminate].
      intros Hrun. apply IH in Hrun. constructor; [|exact Hrun].
      exists ks, K, sol. cbn [fst snd].
      split; [exact Hks|]. split; [exact HK|]. split; [exact Hsol|].
      now rewrite Hren.
    + intros HF. inversion HF as [|? ? Hm HF']; subst.
      destruct Hm as (ks & K & sol & Hks & HK & Hsol & Hren).
      cbn [fst snd] in Hks, Hren.
      rewrite Hks, HK, Hsol.
      destruct (render (nb_t nb) sol mdl (svg_name mdl)) as [[]|];
        [|now elim Hren].
      now apply IH.
Qed.

Lemma in_enumerate_from (mdls : list string) :
  forall (s i : nat) (mdl : string),
    In (i, mdl) (combine (seq s (List.length mdls)) mdls) <->
    (s <= i)%nat /\ nth_error mdls (i - s) = Some mdl.
Proof.
  induction mdls as [|m mdls IH]; intros s i mdl.
  - cbn. split; [easy|]. intros [_ E]. now destruct (i - s)%nat.
  - cbn [List.length seq combine In]. rewrite IH. split.
    + intros [[= <- <-] | [Hs E]].
      * split; [lia|]. now rewrite Nat.sub_diag.
      * split; [lia|]. replace (i - s)%nat with (S (i - S s)) by lia. exact E.
    + intros [Hs E]. destruct (Nat.eq_dec i s) as [-> | Hne].
      * left. rewrite Nat.sub_diag in E. cbn in E. congruence.
      * right. split; [lia|].
        replace (i - s)%nat with (S (i - S s)) in E by lia. exact E.
Qed.

Lemma in_enumerate (mdls : list string) (i : nat) (mdl : string) :
  In (i, mdl) (enumerate mdls) <-> nth_error mdls i = Some mdl.
Proof.
  unfold enumerate. rewrite in_enumerate_from, Nat.sub_0_r.
  split; [now intros [_ E] | intros E; split; [lia | exact E]].
Qed.

Lemma run_completes_when (mdls : list string) (rates : list (list R))
      (nb : notebook) :
  snd (run odeint render mdls rates nb) = Some tt <->
  forall (i : nat) (mdl : string), nth_error mdls i = Some mdl ->
    iteration_returns odeint render rates nb (i, mdl).
Proof.
  unfold run. rewrite loop_completes_iff, Forall_forall. split.
  - intros HF i mdl E. apply HF, in_enumerate, E.
  - intros Hall [i mdl] Hin. apply Hall, in_enumerate, Hin.
Qed.

(** X12: The run completes exactly when every model has a row of rates of
    at least three entries (so that [make_K_matrix] returns), the integrator
    returns on the matrix of that row, and the figure of the model is drawn
    and written. *)
Theorem run_completes_iff (mdls : list string) (rates : list (list R))
        (nb : notebook) :
  snd (run odeint render mdls rates nb) = Some tt <->
  forall (i : nat) (mdl : string), nth_error mdls i = Some mdl ->
    exists (ks : list R) (K : matrix R) (sol : list (vec R)),
      nth_error rates i = Some ks /\ (3 <= List.length ks)%nat /\
      make_K_matrix ks = Some K /\
      odeint dPdt (nb_P0 nb) (nb_t nb) K = Some sol /\
      render (nb_t nb) sol mdl (svg_name mdl) <> None.
Proof.
  rewrite run_completes_when. split.
  - intros Hall i mdl E.
    destruct (Hall i mdl E) as (ks & K & sol & Hks & HK & Hsol & Hren).
    exists ks, K, sol. cbn [fst snd] in *.
    split; [exact Hks|]. split; [exact (make_K_matrix_length ks K HK)|].
    now split.
  - intros Hall i mdl E.
    destruct (Hall i mdl E) as (ks & K & sol & Hks & _ & HK & Hsol & Hren).
    now exists ks, K, sol.
Qed.

End LoopFacts.

Lemma run_completes_iff_witness :
  snd (run (fun _ y0 _ _ => Some [y0]) (fun _ _ _ _ => Some tt)
           ["dye 1"; "dye 2"]%string
           [[1; 0; 0; 0]; [2; 1; 1]]
           {| nb_P0 := [0; 0.25; 0.75];
              nb_t := {| r_start := 0; r_step := 1e-10; r_len := 100000000 |};
              nb_log := [] |})
  = Some tt.
Proof.
  apply run_completes_iff. cbn [List.length nb_P0 nb_t].
  intros [|[|i]] mdl E; cbn in E; [| |now destruct i].
  - exists [1; 0; 0; 0]. eexists. eexists.
    split; [reflexivity|]. split; [cbn; lia|].
    split; [apply make_K_matrix_R|]. split; [reflexivity | discriminate].
  - exists [2; 1; 1]. eexists. eexists.
    split; [reflexivity|]. split; [cbn; lia|].
    split; [reflexivity|]. split; [reflexivity | discriminate].
Defined.

Section LoopLog.

Variable odeint :
  (vec R -> R -> matrix R -> option (vec R)) ->
  vec R -> ndrange -> matrix R -> option (list (vec R)).
Variable render : ndrange -> list (vec R) -> string -> string -> option unit.

Lemma loop_stops (rates : list (list R)) (ms : list (nat * string)) :
  forall nb : notebook,
  exists k : nat,
    saved (nb_log (fst (loop odeint render rates ms nb)))
    = saved (nb_log nb) ++ map svg_name (firstn k (map snd ms)) /\
    ((snd (loop odeint render rates ms nb) = Some tt /\ k = List.length ms /\
      List.length (integrations (nb_log (fst (loop odeint render rates ms nb))))
      = (List.length (integrations (nb_log nb)) + k)%nat) \/
     (snd (loop odeint render rates ms nb) = None /\ (k < List.length ms)%nat /\
      (List.length (integrations (nb_log (fst (loop odeint render rates ms nb))))
       = (List.length (integrations (nb_log nb)) + k)%nat \/
       List.length (integrations (nb_log (fst (loop odeint render rates ms nb))))
       = (List.length (integrations (nb_log nb)) + k + 1)%nat))).
Proof.
  induction ms as [|[i mdl] ms IH]; intros nb.
  - exists 0%nat. cbn. rewrite app_nil_r. split; [reflexivity|].
    left. split; [reflexivity|]. lia.
  - cbn [loop map snd List.length]. unfold bind_cell. rewrite loop_body_eq.
    destruct (nth_error rates i) as [ks|].
    2: { exists 0%nat. cbn. rewrite app_nil_r. split; [reflexivity|].
         right. split; [reflexivity|]. lia. }
    destruct (make_K_matrix ks) as [K|].
    2: { exists 0%nat. cbn. rewrite app_nil_r. split; [reflexivity|].
         right. split; [reflexivity|]. lia. }
    destruct (odeint dPdt (nb_P0 nb) (nb_t nb) K) as [sol|].
    2: { exists 0%nat. cbn [fst snd with_log nb_log firstn map].
         rewrite saved_app, integrations_app, length_app. cbn.
         rewrite !app_nil_r. split; [reflexivity|].
         right. split; [reflexivity|]. lia. }
    destruct (render (nb_t nb) sol mdl (svg_name mdl)).
    + destruct (IH (with_log nb (iteration_events (nb_P0 nb) (nb_t nb) (K, mdl))))
        as (k & Hs & Hcase).
      exists (S k). cbn [with_log nb_log] in Hs, Hcase.
      rewrite saved_app in Hs. rewrite integrations_app, length_app in Hcase.
      cbn [iteration_events saved integrations flat_map app fst snd List.length]
        in Hs, Hcase.
      split; [rewrite Hs, <- app_assoc; reflexivity|].
      destruct Hcase as [(Hr & Hk & Hn) | (Hr & Hk & Hn)]; [left | right];
        (split; [exact Hr|]); lia.
    + exists 0%nat. cbn [fst snd with_log nb_log firstn map].
      rewrite saved_app, integrations_app, length_app. cbn.
      rewrite !app_nil_r. split; [reflexivity|].
      right. split; [reflexivity|]. lia.
Qed.

(** X13: Errors are fatal: the figures written are those of the first k models,
    in the order of the table; k is the number of models when the run
    completes; when it raises (in the rates, the integrator or the
    figure), k is smaller, no later model is integrated or plotted, and at
    most the failing model was handed to the integrator. *)
Theorem run_stops_at_first_error (mdls : list string) (rates : list (list R))
        (nb : notebook) :
  exists k : nat,
    saved (nb_log (fst (run odeint render mdls rates nb)))
    = saved (nb_log nb) ++ map svg_name (firstn k mdls) /\
    ((snd (run odeint render mdls rates nb) = Some tt /\ k = List.length mdls /\
      List.length (integrations (nb_log (fst (run odeint render mdls rates nb))))
      = (List.length (integrations (nb_log nb)) + k)%nat) \/
     (snd (run odeint render mdls rates nb) = None /\ (k < List.length mdls)%nat /\
      (List.length (integrations (nb_log (fst (run odeint render mdls rates nb))))
       = (List.length (integrations (nb_log nb)) + k)%nat \/
       List.length (integrations (nb_log (fst (run odeint render mdls rates nb))))
       = (List.length (integrations (nb_log nb)) + k + 1)%nat))).
Proof.
  unfold run.
  destruct (loop_stops rates (enumerate mdls) nb) as (k & Hs & Hcase).
  destruct (enumerate_names mdls) as [Hnames Hlen].
  rewrite Hnames, Hlen in *. now exists k.
Qed.

Lemma skipn_nth_error {X : Type} (l : list X) (s : nat) (x : X) :
  nth_error l s = Some x -> skipn s l = x :: skipn (S s) l.
Proof.
  revert l. induction s as [|s IH]; intros [|y l]; try discriminate.
  - now intros [= ->].
  - cbn [nth_error]. intros E. now rewrite skipn_cons, (IH l E).
Qed.

Lemma loop_pairs (rates : list (list R)) (mdls : list string) :
  forall (s : nat) (nb nb' : notebook),
    loop odeint render rates (combine (seq s (List.length mdls)) mdls) nb
    = (nb', Some tt) ->
    exists Ks : list (matrix R),
      Forall2 (fun ks K => make_K_matrix ks = Some K)
              (firstn (List.length mdls) (skipn s rates)) Ks /\
      nb_log nb'
      = nb_log nb
        ++ flat_map (iteration_events (nb_P0 nb) (nb_t nb)) (combine Ks mdls).
Proof.
  induction mdls as [|mdl mdls IH]; intros s nb nb'.
  - cbn. intros [= <-]. exists []. split; [constructor | now rewrite app_nil_r].
  - cbn [List.length seq combine loop]. unfold bind_cell. rewrite loop_body_eq.
    destruct (nth_error rates s) as [ks|] eqn:Hks; [|discriminate].
    destruct (make_K_matrix ks) as [K|] eqn:HK; [|discriminate].
    destruct (odeint dPdt (nb_P0 nb) (nb_t nb) K) as [sol|]; [|discriminate].
    destruct (render (nb_t nb) sol mdl (svg_name mdl)); [|discriminate].
    intros Hrun. apply IH in Hrun. destruct Hrun as (Ks & HF & Hlog).
    cbn [with_log nb_P0 nb_t nb_log] in Hlog.
    exists (K :: Ks). split.
    + rewrite (skipn_nth_error _ _ _ Hks). cbn [firstn].
      constructor; [exact HK | exact HF].
    + rewrite Hlog, <- app_assoc. reflexivity.
Qed.

(** X14: In a run that completes the log is, model after model in the order of
    the table, the integration of the matrix of that model's own row of
    rates from the notebook's P0 over its grid, followed by the figure named
    after that model. *)
Theorem run_pairs_rows_with_names (mdls : list string) (rates : list (list R))
        (nb nb' : notebook) :
  run odeint render mdls rates nb = (nb', Some tt) ->
  exists Ks : list (matrix R),
    Forall2 (fun ks K => make_K_matrix ks = Some K)
            (firstn (List.length mdls) rates) Ks /\
    nb_log nb'
    = nb_log nb
      ++ flat_map (iteration_events (nb_P0 nb) (nb_t nb)) (combine Ks mdls).
Proof.
  unfold run, enumerate. intros Hrun.
  exact (loop_pairs rates mdls 0 nb nb' Hrun).
Qed.

End LoopLog.

Lemma run_pairs_rows_with_names_witness :
  exists (nb' : notebook) (Ks : list (matrix R)),
    Forall2 (fun ks K => make_K_matrix ks = Some K)
            [[1; 0; 0; 0]; [2; 1; 1; 0]] Ks /\
    nb_log nb'
    = flat_map (iteration_events [0; 0.25; 0.75]
                  {| r_start := 0; r_step := 1e-10; r_len := 100000000 |})
               (combine Ks ["dye 1"; "dye 2"]%string).
Proof.
  eexists.
  apply (run_pairs_rows_with_names (fun _ y0 _ _ => Some [y0])
           (fun _ _ _ _ => Some tt) ["dye 1"; "dye 2"]%string [[1; 0; 0; 0]; [2; 1; 1; 0]; [5; 5; 5; 5]]
           {| nb_P0 := [0; 0.25; 0.75];
              nb_t := {| r_start := 0; r_step := 1e-10; r_len := 100000000 |};
              nb_log := [] |}).
  reflexivity.
Defined.

(** ** One figure for each model *)





(** A figure that cannot be written stops the run: with a renderer that
    refuses a file name with a slash in it, the dye "a/b c" is integrated,
    no file is written, and the dye after it is not reached. *)
Example savefig_raises :
  let out := run (fun _ y0 _ _ => Some [y0])
                 (fun _ _ _ fname => if occurs "/" fname then None else Some tt)
                 ["a/b c"; "d"]%string [[1; 0; 0; 0]; [2; 1; 1; 0]]
                 {| nb_P0 := [0; 0.25; 0.75];
                    nb_t := {| r_start := 0; r_step := 1e-10;
                               r_len := 100000000 |};
                    nb_log := [] |} in
  snd out = None /\ saved (nb_log (fst out)) = [] /\
  List.length (integrations (nb_log (fst out))) = 1%nat.
Proof. repeat split. Qed.

(** ** The names of the figures *)

Lemma length_append (s1 s2 : string) :
  String.length (s1 ++ s2) = (String.length s1 + String.length s2)%nat.
Proof. induction s1 as [|c s1 IH]; [reflexivity|]. cbn. now rewrite IH. Qed.

Lemma occurs_append (c : ascii) (s1 s2 : string) :
  occurs c (s1 ++ s2) = (occurs c s1 || occurs c s2)%bool.
Proof.
  induction s1 as [|x s1 IH]; [reflexivity|].
  cbn. now rewrite IH, orb_assoc.
Qed.

Lemma underscore_spaces_no_space (s : string) :
  occurs " " (underscore_spaces s) = false.
Proof.
  induction s as [|c s IH]; [reflexivity|].
  cbn [underscore_spaces occurs]. rewrite IH, orb_false_r.
  destruct (Ascii.eqb_spec c " ") as [-> | Hc]; [reflexivity|].
  now apply Ascii.eqb_neq.
Qed.

Lemma underscore_spaces_length (s : string) :
  String.length (underscore_spaces s) = String.length s.
Proof. induction s as [|c s IH]; [reflexivity|]. cbn. now rewrite IH. Qed.

Lemma underscore_spaces_plain (s : string) :
  occurs " " s = false -> underscore_spaces s = s.
Proof.
  induction s as [|c s IH]; [reflexivity|].
  cbn [occurs underscore_spaces]. intros Hs.
  apply orb_false_elim in Hs. destruct Hs as [Hc Hs].
  now rewrite Hc, (IH Hs).
Qed.

Lemma append_cancel_r (s1 s2 t : string) :
  (s1 ++ t = s2 ++ t)%string -> s1 = s2.
Proof.
  revert s2. induction s1 as [|c s1 IH]; intros [|c' s2] E.
  - reflexivity.
  - apply (f_equal String.length) in E. cbn in E.
    rewrite length_append in E. lia.
  - apply (f_equal String.length) in E. cbn in E.
    rewrite length_append in E. lia.
  - cbn in E. injection E as -> E. now rewrite (IH s2 E).
Qed.

(** X15: The file name of a figure never contains a space, is four characters
    longer than the name of the model and ends in ".svg" after a stem as
    long as the name. *)
Theorem svg_name_has_no_space (name : string) :
  occurs " " (svg_name name) = false /\
  String.length (svg_name name) = (String.length name + 4)%nat /\
  exists stem : string,
    svg_name name = (stem ++ ".svg")%string /\
    String.length stem = String.length name.
Proof.
  unfold svg_name. rewrite replace_space. split; [|split].
  - now rewrite occurs_append, underscore_spaces_no_space.
  - now rewrite length_append, underscore_spaces_length.
  - exists (underscore_spaces name).
    split; [reflexivity | apply underscore_spaces_length].
Qed.

(** X16: A name without a space is kept as it is. *)
Theorem svg_name_plain (name : string) :
  occurs " " name = false -> svg_name name = (name ++ ".svg")%string.
Proof.
  intros Hs. unfold svg_name. now rewrite replace_space, underscore_spaces_plain.
Qed.

Lemma svg_name_plain_witness : svg_name "4CzIPN" = "4CzIPN.svg"%string.
Proof. apply svg_name_plain. reflexivity. Defined.

Lemma underscore_spaces_injective (n1 n2 : string) :
  occurs "_" n1 = false -> occurs "_" n2 = false ->
  underscore_spaces n1 = underscore_spaces n2 -> n1 = n2.
Proof.
  revert n2. induction n1 as [|c1 n1 IH]; intros [|c2 n2]; try discriminate.
  - reflexivity.
  - cbn [occurs underscore_spaces]. intros H1 H2 E.
    apply orb_false_elim in H1. destruct H1 as [Hc1 H1].
    apply orb_false_elim in H2. destruct H2 as [Hc2 H2].
    injection E as Ec E. rewrite (IH n2 H1 H2 E). f_equal.
    apply Ascii.eqb_neq in Hc1. apply Ascii.eqb_neq in Hc2.
    destruct (Ascii.eqb_spec c1 " ") as [-> | N1];
      destruct (Ascii.eqb_spec c2 " ") as [-> | N2]; congruence.
Qed.

(** X17: Two models with different names, neither holding an underscore, get
    different files. *)
Theorem svg_name_injective_without_underscore (n1 n2 : string) :
  occurs "_" n1 = false -> occurs "_" n2 = false ->
  n1 <> n2 -> svg_name n1 <> svg_name n2.
Proof.
  intros H1 H2 Hne. unfold svg_name. rewrite !replace_space. intros E.
  apply append_cancel_r in E. now apply Hne, underscore_spaces_injective.
Qed.

Lemma svg_name_injective_without_underscore_witness :
  svg_name "dye 1" <> svg_name "dye 2".
Proof.
  apply svg_name_injective_without_underscore;
    [reflexivity | reflexivity | discriminate].
Defined.

(** X18: A name with a space shares its file with another name: the one in which
    the spaces are already underscores.  The later figure replaces the
    earlier one. *)
Theorem svg_name_collision (name : string) :
  occurs " " name = true ->
  exists other : string, other <> name /\ svg_name other = svg_name name.
Proof.
  intros Hs. exists (underscore_spaces name). split.
  - intros E. rewrite <- E, underscore_spaces_no_space in Hs. discriminate Hs.
  - unfold svg_name. rewrite !replace_space.
    now rewrite (underscore_spaces_plain _ (underscore_spaces_no_space name)).
Qed.

Lemma svg_name_collision_witness :
  exists other : string, other <> "my dye"%string /\ svg_name other = svg_name "my dye".
Proof. apply svg_name_collision. reflexivity. Defined.

(** ** The table of rates *)

Lemma column_of_length (df : DataFrame) (label : string) (c : list R) :
  well_formed df -> column_of label (df_float df) = Some c ->
  List.length c = df_len df.
Proof.
  intros [_ Hwf]. induction (df_float df) as [|[l c'] cols IH]; [discriminate|].
  inversion Hwf as [|? ? Hc Hcols]; subst. cbn [column_of].
  destruct (String.eqb l label); [intros [= <-]; exact Hc | now apply IH].
Qed.

Lemma rows_of_four (c1 c2 c3 c4 : list R) (indices : list nat) :
  Forall (fun i => (i < List.length c1)%nat /\ (i < List.length c2)%nat /\
                   (i < List.length c3)%nat /\ (i < List.length c4)%nat)
         indices ->
  rows_of [c1; c2; c3; c4] indices
  = Some (map (fun i => [nth i c1 0; nth i c2 0; nth i c3 0; nth i c4 0]) indices).
Proof.
  induction indices as [|i indices IH]; intros HF; [reflexivity|].
  inversion HF as [|? ? (H1 & H2 & H3 & H4) HF']; subst.
  cbn [rows_of row_of map].
  rewrite (nth_error_nth' c1 0 H1), (nth_error_nth' c2 0 H2),
    (nth_error_nth' c3 0 H3), (nth_error_nth' c4 0 H4).
  cbn [bind]. now rewrite (IH HF').
Qed.

Lemma rates_table (df : DataFrame) (c_em c_ISC c_rISC c_nr : list R) :
  well_formed df ->
  column_of "k_em / Hz" (df_float df) = Some c_em ->
  column_of "k_ISC / Hz" (df_float df) = Some c_ISC ->
  column_of "k_rISC / Hz" (df_float df) = Some c_rISC ->
  column_of "k_nr / Hz" (df_float df) = Some c_nr ->
  rates df
  = Some (map (fun i => [nth i c_em 0; nth i c_ISC 0; nth i c_rISC 0;
                         nth i c_nr 0])
              (seq 0 (df_len df))).
Proof.
  intros Hwf H1 H2 H3 H4.
  pose proof (column_of_length df _ _ Hwf H1) as L1.
  pose proof (column_of_length df _ _ Hwf H2) as L2.
  pose proof (column_of_length df _ _ Hwf H3) as L3.
  pose proof (column_of_length df _ _ Hwf H4) as L4.
  unfold rates. cbn [columns_of]. rewrite H1, H2, H3, H4. cbn [bind].
  unfold values. apply rows_of_four.
  apply Forall_forall. intros i Hi. apply in_seq in Hi. lia.
Qed.

(** X19: The rates are picked by label, not by position in the file: when the
    four labelled columns exist, [rates.values] has one row for each row of
    the frame, and row i holds cell i of the columns k_em, k_ISC, k_rISC
    and k_nr, in this order, so that [make_K_matrix] returns on it. *)
Theorem rates_rows (df : DataFrame) (c_em c_ISC c_rISC c_nr : list R) :
  well_formed df ->
  column_of "k_em / Hz" (df_float df) = Some c_em ->
  column_of "k_ISC / Hz" (df_float df) = Some c_ISC ->
  column_of "k_rISC / Hz" (df_float df) = Some c_rISC ->
  column_of "k_nr / Hz" (df_float df) = Some c_nr ->
  exists r : list (list R),
    rates df = Some r /\
    List.length r = df_len df /\
    forall i : nat, (i < df_len df)%nat ->
      nth_error r i
      = Some [nth i c_em 0; nth i c_ISC 0; nth i c_rISC 0; nth i c_nr 0] /\
      make_K_matrix [nth i c_em 0; nth i c_ISC 0; nth i c_rISC 0; nth i c_nr 0]
      = Some [[0; nth i c_em 0 + nth i c_nr 0; 0];
              [0; - (nth i c_em 0 + nth i c_ISC 0 + nth i c_nr 0); nth i c_rISC 0];
              [0; nth i c_ISC 0; - nth i c_rISC 0]].
Proof.
  intros Hwf H1 H2 H3 H4.
  eexists. split; [exact (rates_table df _ _ _ _ Hwf H1 H2 H3 H4)|].
  split; [now rewrite length_map, length_seq|].
  intros i Hi. split; [|apply make_K_matrix_R].
  rewrite nth_error_map, (nth_error_nth' _ 0%nat) by (rewrite length_seq; lia).
  rewrite seq_nth by lia. reflexivity.
Qed.

Lemma rates_rows_witness :
  exists r : list (list R),
    rates {| df_len := 2;
             df_text := [("Dye", ["a"; "b"])]%string;
             df_float := [("k_nr / Hz", [4; 40]); ("k_em / Hz", [1; 10]);
                          ("tau / s", [0; 0]); ("k_rISC / Hz", [3; 30]);
                          ("k_ISC / Hz", [2; 20])]%string |}
    = Some r /\
    nth_error r 1 = Some [10; 20; 30; 40].
Proof.
  destruct (rates_rows
              {| df_len := 2;
                 df_text := [("Dye", ["a"; "b"])]%string;
                 df_float := [("k_nr / Hz", [4; 40]); ("k_em / Hz", [1; 10]);
                              ("tau / s", [0; 0]); ("k_rISC / Hz", [3; 30]);
                              ("k_ISC / Hz", [2; 20])]%string |}
              [1; 10] [2; 20] [3; 30] [4; 40])
    as (r & Hr & _ & Hrow); try reflexivity.
  - split; repeat constructor.
  - exists r. split; [exact Hr|].
    exact (proj1 (Hrow 1%nat ltac:(cbn; lia))).
Defined.

(** X20: A missing column of rates is a KeyError, and nothing else is: for a
    well-formed frame [rates] raises exactly when one of the four labels is
    carried by no column. *)
Theorem rates_key_error (df : DataFrame) :
  well_formed df ->
  (rates df = None <->
   exists label : string,
     In label ["k_em / Hz"; "k_ISC / Hz"; "k_rISC / Hz"; "k_nr / Hz"]%string /\
     column_of label (df_float df) = None).
Proof.
  intros Hwf. split.
  - intros Hnone.
    destruct (column_of "k_em / Hz" (df_float df)) as [c1|] eqn:H1;
      [|exists "k_em / Hz"%string; split; [cbn; tauto | exact H1]].
    destruct (column_of "k_ISC / Hz" (df_float df)) as [c2|] eqn:H2;
      [|exists "k_ISC / Hz"%string; split; [cbn; tauto | exact H2]].
    destruct (column_of "k_rISC / Hz" (df_float df)) as [c3|] eqn:H3;
      [|exists "k_rISC / Hz"%string; split; [cbn; tauto | exact H3]].
    destruct (column_of "k_nr / Hz" (df_float df)) as [c4|] eqn:H4;
      [|exists "k_nr / Hz"%string; split; [cbn; tauto | exact H4]].
    rewrite (rates_table df c1 c2 c3 c4 Hwf H1 H2 H3 H4) in Hnone.
    discriminate Hnone.
  - intros (label & Hin & Hmiss). unfold rates. cbn [columns_of].
    cbn [In] in Hin.
    destruct Hin as [<- | [<- | [<- | [<- | []]]]]; rewrite Hmiss;
      repeat match goal with
             | |- context [column_of ?l ?c] => destruct (column_of l c)
             end; reflexivity.
Qed.

Lemma rates_key_error_witness :
  rates {| df_len := 1;
           df_text := [("Dye", ["a"])]%string;
           df_float := [("k_em / Hz", [1]); ("k_ISC / Hz", [2]);
                        ("k_nr / Hz", [4])]%string |}
  = None.
Proof.
  apply rates_key_error.
  - split; repeat constructor.
  - exists "k_rISC / Hz"%string. split; [cbn; tauto | reflexivity].
Defined.

Lemma rates_columns (df : DataFrame) (r : list (list R)) :
  rates df = Some r ->
  exists c_em c_ISC c_rISC c_nr : list R,
    column_of "k_em / Hz" (df_float df) = Some c_em /\
    column_of "k_ISC / Hz" (df_float df) = Some c_ISC /\
    column_of "k_rISC / Hz" (df_float df) = Some c_rISC /\
    column_of "k_nr / Hz" (df_float df) = Some c_nr.
Proof.
  unfold rates. cbn [columns_of].
  destruct (column_of "k_em / Hz" (df_float df)) as [c1|]; [|discriminate].
  destruct (column_of "k_ISC / Hz" (df_float df)) as [c2|]; [|discriminate].
  destruct (column_of "k_rISC / Hz" (df_float df)) as [c3|]; [|discriminate].
  destruct (column_of "k_nr / Hz" (df_float df)) as [c4|]; [|discriminate].
  intros _. now exists c1, c2, c3, c4.
Qed.

Lemma mdls_length (df : DataFrame) (m : list string) :
  well_formed df -> mdls df = Some m -> List.length m = df_len df.
Proof.
  intros [Hwf _]. unfold mdls.
  induction (df_text df) as [|[l c'] cols IH]; [discriminate|].
  inversion Hwf as [|? ? Hc Hcols]; subst. cbn [column_of].
  destruct (String.eqb l "Dye"); [intros [= <-]; exact Hc | now apply IH].
Qed.

(** X21: With a well-formed table that has the column of names and the four
    columns of rates, only the integrator and the figures can stop the run:
    no row of rates is missing and [make_K_matrix] returns on every row, so
    if the integrator returns on every matrix and every figure is drawn and
    written, the run completes and writes the figure of every dye of the
    table, in the order of the table. *)
Theorem table_run_completes
        (odeint : (vec R -> R -> matrix R -> option (vec R)) ->
                  vec R -> ndrange -> matrix R -> option (list (vec R)))
        (render : ndrange -> list (vec R) -> string -> string -> option unit)
        (df : DataFrame) (m : list string) (r : list (list R)) (nb : notebook) :
  well_formed df -> mdls df = Some m -> rates df = Some r ->
  (forall K : matrix R, odeint dPdt (nb_P0 nb) (nb_t nb) K <> None) ->
  (forall (sol : list (vec R)) (mdl : string),
     In mdl m -> render (nb_t nb) sol mdl (svg_name mdl) <> None) ->
  snd (run odeint render m r nb) = Some tt /\
  saved (nb_log (fst (run odeint render m r nb)))
  = saved (nb_log nb) ++ map svg_name m.
Proof.
  intros Hwf Hm Hr Hode Hren.
  assert (Hrun : snd (run odeint render m r nb) = Some tt).
  { apply run_completes_when. intros i mdl Hi.
    assert (Hlt : (i < df_len df)%nat).
    { rewrite <- (mdls_length df m Hwf Hm). apply nth_error_Some. congruence. }
    destruct (rates_columns df r Hr) as (c1 & c2 & c3 & c4 & H1 & H2 & H3 & H4).
    rewrite (rates_table df c1 c2 c3 c4 Hwf H1 H2 H3 H4) in Hr.
    injection Hr as <-.
    destruct (odeint dPdt (nb_P0 nb) (nb_t nb)
                [[0; nth i c1 0 + nth i c4 0; 0];
                 [0; - (nth i c1 0 + nth i c2 0 + nth i c4 0); nth i c3 0];
                 [0; nth i c2 0; - nth i c3 0]]) as [sol|] eqn:Hsol;
      [|now elim (Hode _ Hsol)].
    eexists. eexists. exists sol. cbn [fst snd].
    split; [|split; [apply make_K_matrix_R | split; [exact Hsol|]]].
    - rewrite nth_error_map, (nth_error_nth' _ 0%nat) by (rewrite length_seq; lia).
      rewrite seq_nth by lia. reflexivity.
    - apply Hren. exact (nth_error_In _ _ Hi). }
  split; [exact Hrun|].
  destruct (run odeint render m r nb) as [nb' res] eqn:E.
  cbn [fst snd] in *. subst res.
  unfold run in E. apply loop_completed in E. destruct E as [Hs _].
  now rewrite <- map_map, (proj1 (enumerate_names m)) in Hs.
Qed.

Lemma table_run_completes_witness :
  saved (nb_log (fst (run (fun _ y0 _ _ => Some [y0]) (fun _ _ _ _ => Some tt)
                          ["dye a"; "dye b"]%string
                          [[1; 2; 3; 4]; [10; 20; 30; 40]]
                          {| nb_P0 := [0; 0.25; 0.75];
                             nb_t := {| r_start := 0; r_step := 1e-10;
                                        r_len := 100000000 |};
                             nb_log := [] |})))
  = ["dye_a.svg"; "dye_b.svg"]%string.
Proof.
  apply (table_run_completes (fun _ y0 _ _ => Some [y0]) (fun _ _ _ _ => Some tt)
           {| df_len := 2;
              df_text := [("Dye", ["dye a"; "dye b"])]%string;
              df_float := [("k_nr / Hz", [4; 40]); ("k_em / Hz", [1; 10]);
                           ("k_rISC / Hz", [3; 30]);
                           ("k_ISC / Hz", [2; 20])]%string |}).
  - split; repeat constructor.
  - reflexivity.
  - reflexivity.
  - discriminate.
  - discriminate.
Defined.

(** ** The trajectory is unique *)

Lemma vanishes_on (G G' : R -> R) (T : R) :
  (forall c, 0 <= c <= T -> derivable_pt_lim G c (G' c)) ->
  (forall c, 0 <= c <= T -> G' c <= 0) ->
  (forall c, 0 <= c <= T -> 0 <= G c) ->
  G 0 = 0 ->
  forall x, 0 <= x <= T -> G x = 0.
Proof.
  intros HD Hneg Hpos H0 x Hx.
  destruct (Req_dec x 0) as [-> | Hx0]; [exact H0|].
  assert (Hlt : 0 < x) by lra.
  destruct (MVT_cor2 G G' 0 x Hlt) as (c & Hc & Hc').
  - intros z Hz. apply HD. lra.
  - assert (G' c <= 0) by (apply Hneg; lra).
    assert (0 <= G x) by (apply Hpos; lra).
    assert (G' c * (x - 0) <= 0) by nra.
    lra.
Qed.

Lemma excited_difference_bound (b c d u1 u2 : R) :
  ((- b * u1 + c * u2) * u1 + u1 * (- b * u1 + c * u2))
  + ((d * u1 + - c * u2) * u2 + u2 * (d * u1 + - c * u2))
  <= ((1 + b * b) + (1 + c * c) + (1 + (c + d) * (c + d)))
     * (u1 * u1 + u2 * u2).
Proof.
  assert (Hdiff :
    ((1 + b * b) + (1 + c * c) + (1 + (c + d) * (c + d)))
    * (u1 * u1 + u2 * u2)
    - (((- b * u1 + c * u2) * u1 + u1 * (- b * u1 + c * u2))
       + ((d * u1 + - c * u2) * u2 + u2 * (d * u1 + - c * u2)))
    = Rsqr ((b + 1) * u1) + 2 * Rsqr u1 + Rsqr (c * u1)
      + Rsqr ((c + d) * u1 - u2) + Rsqr ((c + 1) * u2) + Rsqr (b * u2)
      + Rsqr ((c + d) * u2) + Rsqr u2)
    by (unfold Rsqr; ring).
  pose proof (Rle_0_sqr ((b + 1) * u1)). pose proof (Rle_0_sqr u1).
  pose proof (Rle_0_sqr (c * u1)). pose proof (Rle_0_sqr ((c + d) * u1 - u2)).
  pose proof (Rle_0_sqr ((c + 1) * u2)). pose proof (Rle_0_sqr (b * u2)).
  pose proof (Rle_0_sqr ((c + d) * u2)). pose proof (Rle_0_sqr u2).
  lra.
Qed.

Lemma excited_agree (k_em k_ISC k_rISC k_nr : R) (K : matrix R)
      (y0 : vec R) (T : R) (y z : R -> vec R) (x : R) :
  make_K_matrix [k_em; k_ISC; k_rISC; k_nr] = Some K ->
  solution K y0 T y -> solution K y0 T z -> 0 <= x <= T ->
  component 1 y x = component 1 z x /\ component 2 y x = component 2 z x.
Proof.
  intros HK Hy Hz Hx.
  set (b := k_em + k_ISC + k_nr). set (c := k_rISC). set (d := k_ISC).
  set (C := (1 + b * b) + (1 + c * c) + (1 + (c + d) * (c + d))).
  set (u1 := fun s => component 1 y s - component 1 z s).
  set (u2 := fun s => component 2 y s - component 2 z s).
  set (E := fun s => u1 s * u1 s + u2 s * u2 s).
  set (E' := fun s =>
               ((- b * u1 s + c * u2 s) * u1 s + u1 s * (- b * u1 s + c * u2 s))
               + ((d * u1 s + - c * u2 s) * u2 s
                  + u2 s * (d * u1 s + - c * u2 s))).
  assert (HG : (fun s => E s * exp (- C * s)) x = 0).
  { apply (vanishes_on (fun s => E s * exp (- C * s))
             (fun s => E' s * exp (- C * s) + E s * (- C * exp (- C * s))) T).
    - intros s Hs.
      destruct (solution_at _ _ _ _ _ _ _ _ _ HK Hy Hs) as (_ & _ & Y1 & Y2).
      destruct (solution_at _ _ _ _ _ _ _ _ _ HK Hz Hs) as (_ & _ & Z1 & Z2).
      pose proof (derivable_pt_lim_minus _ _ _ _ _ Y1 Z1) as U1.
      pose proof (derivable_pt_lim_minus _ _ _ _ _ Y2 Z2) as U2.
      fold b c d in U1, U2.
      assert (U1' : derivable_pt_lim u1 s (- b * u1 s + c * u2 s)).
      { unfold u1, u2.
        match type of U1 with derivable_pt_lim _ _ ?l =>
          replace (- b * (component 1 y s - component 1 z s)
                   + c * (component 2 y s - component 2 z s)) with l by ring
        end. exact U1. }
      assert (U2' : derivable_pt_lim u2 s (d * u1 s + - c * u2 s)).
      { unfold u1, u2.
        match type of U2 with derivable_pt_lim _ _ ?l =>
          replace (d * (component 1 y s - component 1 z s)
                   + - c * (component 2 y s - component 2 z s)) with l by ring
        end. exact U2. }
      apply (derivable_pt_lim_mult E (fun r => exp (- C * r)));
        [|apply derivable_pt_lim_exp_scal].
      unfold E, E'.
      apply (derivable_pt_lim_plus (fun r => u1 r * u1 r) (fun r => u2 r * u2 r)).
      + exact (derivable_pt_lim_mult _ _ _ _ _ U1' U1').
      + exact (derivable_pt_lim_mult _ _ _ _ _ U2' U2').
    - intros s Hs. cbv beta.
      pose proof (exp_pos (- C * s)) as He.
      pose proof (excited_difference_bound b c d (u1 s) (u2 s)) as Hb.
      fold C in Hb. fold (E' s) in Hb. fold (E s) in Hb.
      replace (E' s * exp (- C * s) + E s * (- C * exp (- C * s)))
        with ((E' s - C * E s) * exp (- C * s)) by ring.
      assert (E' s - C * E s <= 0) by lra. nra.
    - intros s Hs. cbv beta.
      pose proof (exp_pos (- C * s)) as He.
      assert (0 <= E s) by (unfold E; nra). nra.
    - unfold E, u1, u2, component.
      rewrite (proj1 Hy), (proj1 Hz). ring.
    - exact Hx. }
  cbv beta in HG.
  pose proof (exp_pos (- C * x)) as He.
  assert (HE : E x = 0).
  { destruct (Rmult_integral _ _ HG) as [E0|E0]; [exact E0 | lra]. }
  unfold E in HE.
  assert (Hu1 : u1 x = 0) by nra.
  assert (Hu2 : u2 x = 0) by nra.
  unfold u1 in Hu1. unfold u2 in Hu2. split; lra.
Qed.

(** X9: Two trajectories of the rate equations from one initial vector agree at
    every time: the populations [odeint] is asked for are determined by the
    four rates and the initial vector. *)
Theorem trajectory_unique (k_em k_ISC k_rISC k_nr : R) (K : matrix R)
        (y0 : vec R) (T : R) (y z : R -> vec R) (x : R) :
  make_K_matrix [k_em; k_ISC; k_rISC; k_nr] = Some K ->
  solution K y0 T y -> solution K y0 T z -> 0 <= x <= T ->
  y x = z x.
Proof.
  intros HK Hy Hz Hx.
  destruct (solution_at _ _ _ _ _ _ _ _ _ HK Hy Hx) as (Ly & _).
  destruct (solution_at _ _ _ _ _ _ _ _ _ HK Hz Hx) as (Lz & _).
  destruct (excited_agree _ _ _ _ _ _ _ _ _ _ HK Hy Hz Hx) as [E1 E2].
  apply three_ext; try assumption.
  fold (component 0 y x) (component 0 z x).
  assert (H0 : component 0 y x - component 0 z x
               = component 0 y 0 - component 0 z 0).
  { apply (zero_derivative_constant
             (fun s => component 0 y s - component 0 z s) 0 T); [|exact Hx].
    intros s Hs.
    destruct (solution_at _ _ _ _ _ _ _ _ _ HK Hy Hs) as (_ & Y0 & _).
    destruct (solution_at _ _ _ _ _ _ _ _ _ HK Hz Hs) as (_ & Z0 & _).
    destruct (excited_agree _ _ _ _ _ _ _ _ _ _ HK Hy Hz Hs) as [E1s _].
    pose proof (derivable_pt_lim_minus _ _ _ _ _ Y0 Z0) as U0.
    match type of U0 with derivable_pt_lim _ _ ?l =>
      replace 0 with l by (rewrite E1s; ring)
    end. exact U0. }
  unfold component at 3 4 in H0.
  rewrite (proj1 Hy), (proj1 Hz) in H0. lra.
Qed.

Lemma trajectory_unique_witness : emission_only 1 = emission_only 1.
Proof.
  apply (trajectory_unique 1 0 0 0 _ [0; 0.25; 0.75] 2 emission_only emission_only 1
           (make_K_matrix_R 1 0 0 0)
           (emission_only_solution _ 2 (make_K_matrix_R 1 0 0 0))
           (emission_only_solution _ 2 (make_K_matrix_R 1 0 0 0))).
  lra.
Defined.

(** ** What the derivative does not see, and decay without reverse crossing *)

(** X8: The derivative does not depend on the ground-state population: two
    population vectors that differ only in S0 have the same derivative. *)
Theorem dPdt_ignores_ground_state (k_em k_ISC k_rISC k_nr p0 q0 p1 p2 s : R) :
  exists (K : matrix R) (d : vec R),
    make_K_matrix [k_em; k_ISC; k_rISC; k_nr] = Some K /\
    dPdt [p0; p1; p2] s K = Some d /\
    dPdt [q0; p1; p2] s K = Some d.
Proof.
  pose proof (make_K_matrix_R k_em k_ISC k_rISC k_nr) as HK.
  eexists. eexists. split; [exact HK|].
  rewrite !(dPdt_make_K _ _ _ _ _ _ _ _ _ HK). now split.
Qed.

(** X7: Without reverse crossing (k_rISC = 0) S1 decays exponentially with the
    rate k_em + k_ISC + k_nr, whatever the intersystem crossing rate:
    S1(x) = S1(0) * exp(-(k_em + k_ISC + k_nr) x) along a trajectory. *)
Theorem singlet_decay_without_reverse_crossing (k_em k_ISC k_nr : R)
        (K : matrix R) (y0 : vec R) (T : R) (y : R -> vec R) (x : R) :
  make_K_matrix [k_em; k_ISC; 0; k_nr] = Some K ->
  solution K y0 T y -> 0 <= x <= T ->
  component 1 y x = nth 1 y0 0 * exp (- (k_em + k_ISC + k_nr) * x).
Proof.
  intros HK Hy Hx.
  assert (E0 : component 1 y 0 = nth 1 y0 0)
    by (unfold component; now rewrite (proj1 Hy)).
  rewrite <- E0.
  set (k := k_em + k_ISC + k_nr) in *.
  assert (Hg : component 1 y x * exp (k * x) = component 1 y 0 * exp (k * 0)).
  { apply (zero_derivative_constant
             (fun s => component 1 y s * exp (k * s)) 0 T); [|exact Hx].
    intros z Hz.
    destruct (solution_at _ _ _ _ _ _ _ _ _ HK Hy Hz) as (_ & _ & D1 & _).
    pose proof (derivable_pt_lim_mult _ _ _ _ _ D1
                  (derivable_pt_lim_exp_scal k z)) as Hm.
    match type of Hm with derivable_pt_lim _ _ ?l =>
      replace 0 with l by (unfold k; ring)
    end.
    exact Hm. }
  rewrite Rmult_0_r, exp_0, Rmult_1_r in Hg. rewrite <- Hg.
  rewrite Rmult_assoc, <- exp_plus.
  replace (k * x + - k * x) with 0 by ring.
  rewrite exp_0. ring.
Qed.

Lemma singlet_decay_without_reverse_crossing_witness :
  component 1 emission_only 1 = 0.25 * exp (- (1 + 0 + 0) * 1).
Proof.
  apply (singlet_decay_without_reverse_crossing 1 0 0 _ [0; 0.25; 0.75] 2
           emission_only 1 (make_K_matrix_R 1 0 0 0)
           (emission_only_solution _ 2 (make_K_matrix_R 1 0 0 0))).
  lra.
Defined.
